(** * pycallgraphix: the call registry behind [register_method]

    A shallow embedding of [pycallgraphix/wrapper.py]: the [MethodCall]
    dataclass, the [SingletonForCallGraph] registry with its three
    collections, the decorator [register_method] with its wrapper
    [function_wrapper_for_node_storage], and the part of
    [MethodChart.make_graphviz_chart] that writes to the registered records.

    Python objects are references.  The [MethodCall] records live in an
    object store and the registry's lists hold their addresses, so that the
    assignment [methodcall.node = pydot.Node(...)] of the renderer is seen
    through every list that holds the record.  Registry code runs in a small
    state-and-exception monad: a [KeyError] of a dictionary access and the
    [ValueError] of [list.remove] are results, not impossible cases. *)

From Stdlib Require Import PrimFloat ZArith.
From stdpp Require Import gmap strings list.

Open Scope Z_scope.

(** ** Data model *)

(** Address of a [MethodCall] object in the store. *)
Definition loc := nat.

(** Identity of a [pydot.Node] object.  pydot's [Node] defines no [__eq__]:
    two handles are equal exactly when they are the same object. *)
Definition handle := nat.

(** [@dataclass class MethodCall: name: str; node: pydot.Node = None] *)
Record MethodCall := { name : string; node : option handle }.

(** The [__eq__] that [@dataclass] generates compares the tuples of all
    fields, [(self.name, self.node) == (other.name, other.node)]. *)
Definition MethodCall_eq (a b : MethodCall) : bool :=
  bool_decide (name a = name b) && bool_decide (node a = node b).

(** One value of the [my_info] dictionary.  The timer starts as the integer
    [0], which Python adds to a float as [0.0]. *)
Record Info := {
  timer : float;
  callcounter : Z;
  start : float;
  source_functions : list loc }.

(** The process state: the three attributes of the one
    [SingletonForCallGraph] instance, the store of [MethodCall] objects, the
    reading of [time.perf_counter] and the number of [pydot.Node] objects
    made so far.  The instance is built on first access by
    [SingletonMetaForCallGraph.__call__] with the attributes of [__init__];
    building it has no other effect, so the state starts from [__init__]. *)
Record State := {
  heap : list MethodCall;
  my_list_all_functions : list loc;
  my_list_source_functions : list loc;
  my_info : gmap string Info;
  clock : float;
  handles : handle }.

(** [SingletonForCallGraph.__init__], in a process that has run for no time. *)
Definition __init__ : State :=
  {| heap := []; my_list_all_functions := []; my_list_source_functions := [];
     my_info := ∅; clock := 0%float; handles := 0%nat |}.

(** The [my_list] argument of the registry's methods is always one of the
    instance's two lists, passed by reference. *)
Inductive list_ref := AllFunctions | SourceFunctions.

Definition get_list (r : list_ref) (st : State) : list loc :=
  match r with
  | AllFunctions => my_list_all_functions st
  | SourceFunctions => my_list_source_functions st
  end.

Definition put_list (r : list_ref) (l : list loc) (st : State) : State :=
  match r with
  | AllFunctions =>
      {| heap := heap st; my_list_all_functions := l;
         my_list_source_functions := my_list_source_functions st;
         my_info := my_info st; clock := clock st; handles := handles st |}
  | SourceFunctions =>
      {| heap := heap st; my_list_all_functions := my_list_all_functions st;
         my_list_source_functions := l;
         my_info := my_info st; clock := clock st; handles := handles st |}
  end.

Definition put_info (m : gmap string Info) (st : State) : State :=
  {| heap := heap st; my_list_all_functions := my_list_all_functions st;
     my_list_source_functions := my_list_source_functions st;
     my_info := m; clock := clock st; handles := handles st |}.

Definition put_heap (h : list MethodCall) (st : State) : State :=
  {| heap := h; my_list_all_functions := my_list_all_functions st;
     my_list_source_functions := my_list_source_functions st;
     my_info := my_info st; clock := clock st; handles := handles st |}.

Definition put_clock (t : float) (st : State) : State :=
  {| heap := heap st; my_list_all_functions := my_list_all_functions st;
     my_list_source_functions := my_list_source_functions st;
     my_info := my_info st; clock := t; handles := handles st |}.

Definition put_handles (n : handle) (st : State) : State :=
  {| heap := heap st; my_list_all_functions := my_list_all_functions st;
     my_list_source_functions := my_list_source_functions st;
     my_info := my_info st; clock := clock st; handles := n |}.

(** Reading an object.  Every address the program holds was returned by an
    allocation ([wf] below), the default is never read. *)
Definition deref (h : list MethodCall) (l : loc) : MethodCall :=
  default {| name := ""; node := None |} (h !! l).

(** ** Exceptions and the monad of registry code *)

Inductive exn :=
| KeyError (key : string)
| ValueError
| UserError (tag : string).

Inductive result (A : Type) :=
| Ok (a : A)
| Exn (e : exn).
Arguments Ok {A} a.
Arguments Exn {A} e.

Definition M (A : Type) : Type := State → State * result A.

Definition ret {A} (a : A) : M A := λ st, (st, Ok a).

Definition raise {A} (e : exn) : M A := λ st, (st, Exn e).

Definition bind {A B} (c : M A) (k : A → M B) : M B :=
  λ st, match c st with
        | (st', Ok a) => k a st'
        | (st', Exn e) => (st', Exn e)
        end.

(** [try: ... except Exception: ...] around a computation. *)
Definition catch {A} (c : M A) : M (result A) :=
  λ st, match c st with (st', r) => (st', Ok r) end.

Definition gets {A} (f : State → A) : M A := λ st, (st, Ok (f st)).

Definition modify (f : State → State) : M unit := λ st, (f st, Ok tt).

Notation "x <- c1 ;; c2" := (bind c1 (λ x, c2))
  (at level 100, c1 at next level, right associativity).
Notation "c1 ;; c2" := (bind c1 (λ _, c2))
  (at level 100, right associativity).

(** ** Python's list operations on lists of objects *)

(** The comparison behind [in], [list.remove] and [list.index]: identity
    first, then [==]. *)
Definition py_same (h : list MethodCall) (x e : loc) : bool :=
  bool_decide (e = x) || MethodCall_eq (deref h e) (deref h x).

(** [x in l] *)
Definition py_in (h : list MethodCall) (x : loc) (l : list loc) : bool :=
  existsb (py_same h x) l.

(** [l.remove(x)]: the first element equal to [x] goes; [None] stands for
    the [ValueError] of a list without such an element. *)
Fixpoint py_remove (h : list MethodCall) (x : loc) (l : list loc)
  : option (list loc) :=
  match l with
  | [] => None
  | e :: l' => if py_same h x e then Some l' else (e ::.) <$> py_remove h x l'
  end.

(** ** [SingletonForCallGraph]'s methods *)

(** [my_list.append(entry)] *)
Definition set_entry (entry : loc) (my_list : list_ref) : M unit :=
  modify (λ st, put_list my_list (get_list my_list st ++ [entry]) st).

Definition get_entry (entry : loc) : M loc := ret entry.

(** [entry in my_list] *)
Definition exist_entry (entry : loc) (my_list : list_ref) : M bool :=
  gets (λ st, py_in (heap st) entry (get_list my_list st)).

(** [my_list.remove(entry)] *)
Definition delete_entry (entry : loc) (my_list : list_ref) : M unit :=
  λ st, match py_remove (heap st) entry (get_list my_list st) with
        | Some l => (put_list my_list l st, Ok tt)
        | None => (st, Exn ValueError)
        end.

(** [my_list.clear()] *)
Definition clear (my_list : list_ref) : M unit :=
  modify (put_list my_list []).

(** [self.my_info[key]], a [KeyError] when the key is missing. *)
Definition info_of (key : string) : M Info :=
  λ st, match my_info st !! key with
        | Some i => (st, Ok i)
        | None => (st, Exn (KeyError key))
        end.

Definition set_info (key : string) (i : Info) : M unit :=
  modify (λ st, put_info (<[key := i]> (my_info st)) st).

(** [entry.name] *)
Definition name_of (entry : loc) : M string :=
  gets (λ st, name (deref (heap st) entry)).

(** [self.my_info[entry.name]["callcounter"] += 1] *)
Definition edit_callcounter (entry : loc) : M unit :=
  key <- name_of entry ;;
  i <- info_of key ;;
  set_info key {| timer := timer i; callcounter := callcounter i + 1;
                  start := start i; source_functions := source_functions i |}.

(** [self.my_info[entry.name]["timer"] += timer] *)
Definition edit_timer (entry : loc) (t : float) : M unit :=
  key <- name_of entry ;;
  i <- info_of key ;;
  set_info key {| timer := PrimFloat.add (timer i) t; callcounter := callcounter i;
                  start := start i; source_functions := source_functions i |}.

(** [time.perf_counter()] *)
Definition perf_counter : M float := gets clock.

(** [set_source_functions]: the last element of [my_list], when there is
    one and its name is not the entry's, is appended to the entry's
    [source_functions]. *)
Definition set_source_functions (entry : loc) (my_list : list_ref) : M unit :=
  l <- gets (get_list my_list) ;;
  match last l with
  | None => ret tt
  | Some top =>
      top_name <- name_of top ;;
      key <- name_of entry ;;
      if bool_decide (top_name ≠ key) then
        i <- info_of key ;;
        set_info key {| timer := timer i; callcounter := callcounter i;
                        start := start i;
                        source_functions := source_functions i ++ [top] |}
      else ret tt
  end.

(** [create]: a new [my_info] entry under the entry's name, replacing any
    entry already there, then [set_source_functions]. *)
Definition create (entry : loc) (t : float) (my_list : list_ref) : M unit :=
  key <- name_of entry ;;
  now <- perf_counter ;;
  set_info key {| timer := t; callcounter := 1; start := now;
                  source_functions := [] |} ;;
  set_source_functions entry my_list.

(** ** The decorator *)

(** What the wrapper reads of the decorated function: [func.__module__] and
    [func.__name__]. *)
Record func := { func_module : string; func_name : string }.

(** [func.__module__ + "." + func.__name__] *)
Definition qualified (f : func) : string :=
  func_module f +:+ "." +:+ func_name f.

(** [MethodCall(name)]: a new object, its [node] the default [None]. *)
Definition new_MethodCall (n : string) : M loc :=
  λ st, (put_heap (heap st ++ [{| name := n; node := None |}]) st,
         Ok (length (heap st))).

(** The milliseconds between two readings of the clock. *)
Definition milliseconds (start_time end_time : float) : float :=
  PrimFloat.mul (PrimFloat.sub end_time start_time) 1000%float.

(** [function_wrapper_for_node_storage], for the decorated function [f]
    whose call with the actual arguments is the computation [call]. *)
Definition function_wrapper_for_node_storage {A} (f : func) (call : M A) : M A :=
  let name := qualified f in
  methodcall <- new_MethodCall name ;;
  seen <- exist_entry methodcall AllFunctions ;;
  (if seen : bool then
     edit_callcounter methodcall
   else
     create methodcall 0%float SourceFunctions ;;
     set_entry methodcall AllFunctions ;;
     set_entry methodcall SourceFunctions) ;;
  start_time <- perf_counter ;;
  result <- call ;;
  end_time <- perf_counter ;;
  let total_time_in_miliseconds := milliseconds start_time end_time in
  edit_timer methodcall total_time_in_miliseconds ;;
  active <- exist_entry methodcall SourceFunctions ;;
  (if active : bool then delete_entry methodcall SourceFunctions else ret tt) ;;
  ret result.

Definition register_method {A} (f : func) (call : M A) : M A :=
  function_wrapper_for_node_storage f call.

(** ** Programs of decorated functions *)

(** What a decorated function hands back. *)
Inductive value := VNone | VInt (z : Z).

(** The code of a function body, as far as the registry can see it: it
    returns, raises, lets time pass, or calls a decorated function and goes
    on with what the call gave.  [Call] lets an exception of the callee
    pass to the caller; [TryCall] is a call inside [try ... except]. *)
Inductive body :=
| Return (v : value)
| Raise (e : exn)
| Work (seconds : float) (k : body)
| Call (f : func) (callee : body) (k : value → body)
| TryCall (f : func) (callee : body) (k : result value → body).

Definition sleep (seconds : float) : M unit :=
  modify (λ st, put_clock (PrimFloat.add (clock st) seconds) st).

(** Running a body: every call of a decorated function goes through the
    wrapper that [register_method] put around it. *)
Fixpoint run (b : body) : M value :=
  match b with
  | Return v => ret v
  | Raise e => raise e
  | Work seconds k => sleep seconds ;; run k
  | Call f callee k =>
      v <- register_method f (run callee) ;; run (k v)
  | TryCall f callee k =>
      r <- catch (register_method f (run callee)) ;; run (k r)
  end.

(** The same program without the decorator: the names of the decorated
    functions it calls, in the order of the calls, and how it ends. *)
Fixpoint calls (b : body) : list string * result value :=
  match b with
  | Return v => ([], Ok v)
  | Raise e => ([], Exn e)
  | Work _ k => calls k
  | Call f callee k =>
      match calls callee with
      | (t, Ok v) => let (t', r) := calls (k v) in (qualified f :: t ++ t', r)
      | (t, Exn e) => (qualified f :: t, Exn e)
      end
  | TryCall f callee k =>
      let (t, r) := calls callee in
      let (t', r') := calls (k r) in (qualified f :: t ++ t', r')
  end.

(** ** The functions of [test_store_funcs.py] *)

Module TestStoreCalls.

Definition module : string := "test_store_funcs".

Definition sum_recursive_func : func :=
  {| func_module := module; func_name := "sum_recursive" |}.

Definition print_value_func : func :=
  {| func_module := module; func_name := "print_value" |}.

(** [print_value] writes a line to the standard output, which the
    registry never reads, and returns [None]. *)
Definition print_value_body (prefix : string) (v : Z) : body :=
  Return VNone.

Definition print_value (prefix : string) (v : Z) (k : value → body) : body :=
  Call print_value_func (print_value_body prefix v) k.

(** The body of [sum_recursive(a, b)] for an integer [b] that is
    [Z.of_nat n]: [b > 0] is [n = S _], and [b -= 1] gives the
    predecessor. *)
Fixpoint sum_recursive_body (a : Z) (n : nat) : body :=
  match n with
  | S n' =>
      let a := a + 1 in
      print_value "current" a (λ _,
        Call sum_recursive_func (sum_recursive_body a n') Return)
  | O =>
      print_value "final" a (λ _, Return (VInt a))
  end.

Definition sum_recursive (a b : Z) (k : value → body) : body :=
  Call sum_recursive_func (sum_recursive_body a (Z.to_nat b)) k.

(** [test_store_calls], up to its assertion. *)
Definition test_store_calls : body := sum_recursive 1 1 Return.

End TestStoreCalls.

(** ** The renderer's writes *)

(** What [make_graphviz_chart] hands to pydot: nodes, and edges between
    them.  Labels and colours are computed from the statistics and stored
    in pydot's objects only. *)
Record Graph := { graph_nodes : list handle; graph_edges : list (handle * handle) }.

(** [pydot.Node(...)]: a new object. *)
Definition new_Node : M handle :=
  λ st, (put_handles (S (handles st)) st, Ok (handles st)).

(** [methodcall.node = n] *)
Definition set_node (methodcall : loc) (n : handle) : M unit :=
  modify (λ st,
    put_heap (<[methodcall := {| name := name (deref (heap st) methodcall);
                                 node := Some n |}]> (heap st)) st).

Definition node_of (methodcall : loc) : M (option handle) :=
  gets (λ st, node (deref (heap st) methodcall)).

Fixpoint fold_M {A B} (f : B → A → M B) (b : B) (l : list A) : M B :=
  match l with
  | [] => ret b
  | x :: l' => b' <- f b x ;; fold_M f b' l'
  end.

(** The edges into [methodcall]: one from each of its source functions,
    [ValueError] when a source has no node yet. *)
Definition add_edges (methodcall : loc) (g : Graph) (src_node : loc) : M Graph :=
  node_a <- node_of src_node ;;
  node_b <- node_of methodcall ;;
  match node_a, node_b with
  | Some a, Some b =>
      ret {| graph_nodes := graph_nodes g;
             graph_edges := graph_edges g ++ [(a, b)] |}
  | _, _ => raise ValueError
  end.

(** One turn of the loop over [my_list_all_functions]. *)
Definition add_function (g : Graph) (methodcall : loc) : M Graph :=
  key <- name_of methodcall ;;
  _ <- info_of key ;;
  n <- new_Node ;;
  set_node methodcall n ;;
  let g := {| graph_nodes := graph_nodes g ++ [n];
              graph_edges := graph_edges g |} in
  i <- info_of key ;;
  fold_M (add_edges methodcall) g (source_functions i).

(** [MethodChart.make_graphviz_chart]: the timers of all functions are
    read for the palette, then every function gets a node and its edges.
    Rounding, labels, the palette and the PNG file leave the registry as it
    is and are not modelled. *)
Definition make_graphviz_chart : M Graph :=
  all <- gets my_list_all_functions ;;
  fold_M (λ _ item, key <- name_of item ;; _ <- info_of key ;; ret tt) tt all ;;
  fold_M add_function {| graph_nodes := []; graph_edges := [] |} all.

(** ** The wrapper in two halves *)

(** The wrapper up to the call of the decorated function: the new record
    and the reading of the clock that the second half uses. *)
Definition before_call (f : func) : M (loc * float) :=
  methodcall <- new_MethodCall (qualified f) ;;
  seen <- exist_entry methodcall AllFunctions ;;
  (if seen : bool then
     edit_callcounter methodcall
   else
     create methodcall 0%float SourceFunctions ;;
     set_entry methodcall AllFunctions ;;
     set_entry methodcall SourceFunctions) ;;
  start_time <- perf_counter ;;
  ret (methodcall, start_time).

(** The wrapper after the decorated function has returned. *)
Definition after_call (methodcall : loc) (start_time : float) : M unit :=
  end_time <- perf_counter ;;
  edit_timer methodcall (milliseconds start_time end_time) ;;
  active <- exist_entry methodcall SourceFunctions ;;
  (if active : bool then delete_entry methodcall SourceFunctions else ret tt).

(** ** What the claims speak about *)

(** The names of the records in a list. *)
Definition names (h : list MethodCall) (l : list loc) : list string :=
  (λ e, name (deref h e)) <$> l.

Definition names_all (st : State) : list string :=
  names (heap st) (my_list_all_functions st).

Definition names_active (st : State) : list string :=
  names (heap st) (my_list_source_functions st).

(** A history: the programs that a process runs one after the other, each
    from the state that the one before has left, whether it returned or
    raised. *)
Definition run_all (bs : list body) (st : State) : State :=
  foldl (λ st b, (run b st).1) st bs.

(** The calls of a history, in their order.  Every one of them is complete
    when the history ends: it has returned or it has raised. *)
Definition calls_all (bs : list body) : list string :=
  concat ((λ b, (calls b).1) <$> bs).

(** The states of a process that has only run decorated functions. *)
Definition reachable (st : State) : Prop :=
  ∃ bs : list body, st = run_all bs __init__.

(** The names of a sequence of calls, each once, in the order in which they
    come first. *)
Fixpoint first_seen (t : list string) : list string :=
  match t with
  | [] => []
  | n :: t' => n :: filter (λ m, m ≠ n) (first_seen t')
  end.

(** How often a name is called in a sequence of calls. *)
Definition times (n : string) (t : list string) : Z :=
  Z.of_nat (length (filter (λ m, m = n) t)).

(** The caller calls [f] once for every element of [bodies], which are the
    bodies that the calls run, and goes on whether the call raised or not. *)
Fixpoint call_each (f : func) (bodies : list body) : body :=
  match bodies with
  | [] => Return VNone
  | c :: cs => TryCall f c (λ _, call_each f cs)
  end.

(** The body of a function [f] that calls itself [K] times, each call
    inside the one before, and then returns. *)
Fixpoint recursion (f : func) (K : nat) : body :=
  match K with
  | O => Return VNone
  | S K' => Call f (recursion f K') Return
  end.

(** ** Small programs for the examples *)

Module Example.

Definition caller : func := {| func_module := "m"; func_name := "caller" |}.
Definition other_caller : func := {| func_module := "m"; func_name := "other_caller" |}.
Definition callee : func := {| func_module := "m"; func_name := "callee" |}.

(** [caller] calls [callee]. *)
Definition first_history : body :=
  Call caller (Call callee (Return VNone) Return) Return.

(** Later [other_caller] calls [callee]. *)
Definition second_history : body :=
  Call other_caller (Call callee (Return VNone) Return) Return.

(** [callee] is called once and returns. *)
Definition one_call : body := Call callee (Return VNone) Return.

(** A body that raises at once, and one that raises after a second. *)
Definition failing : body := Raise (UserError "boom").
Definition slow_failing : body := Work 1%float (Raise (UserError "boom")).

(** A body that returns after a second. *)
Definition slow : body := Work 1%float (Return (VInt 5)).

End Example.

(** ** Invariants *)

(** The invariant of those states: no record has a node, the lists hold
    addresses of the store, no name is twice in a list, what is active is
    registered, and [my_info] has exactly the registered names. *)
Record wf (st : State) : Prop := {
  wf_nodes : Forall (λ mc, node mc = None) (heap st);
  wf_all : Forall (λ e, e < length (heap st))%nat (my_list_all_functions st);
  wf_active : Forall (λ e, e < length (heap st))%nat (my_list_source_functions st);
  wf_all_nodup : NoDup (names_all st);
  wf_active_nodup : NoDup (names_active st);
  wf_active_all : names_active st ⊆ names_all st;
  wf_info : ∀ n, is_Some (my_info st !! n) ↔ n ∈ names_all st }.

Definition record_of (f : func) : MethodCall :=
  {| name := qualified f; node := None |}.

(** Registering the names of a sequence of calls, one after the other. *)
Definition register (acc t : list string) : list string :=
  foldl (λ acc n, if decide (n ∈ acc) then acc else acc ++ [n]) acc t.

Definition counter (st : State) (n : string) : Z :=
  from_option callcounter 0 (my_info st !! n).

(** [st'] comes after [st] by the calls [t]. *)
Record follows (st : State) (t : list string) (st' : State) : Prop := {
  fl_wf : wf st';
  fl_names : names_all st' = register (names_all st) t;
  fl_counter : ∀ n, counter st' n = counter st n + times n t;
  fl_sources : ∀ n i, my_info st !! n = Some i →
     ∃ i', my_info st' !! n = Some i' ∧ source_functions i' = source_functions i;
  fl_heap : heap st `prefix_of` heap st' }.

(** A computation that, from every state of the invariant, makes the calls
    [t] and ends with [r]. *)
Definition behaves {A} (c : M A) (t : list string) (r : result A) : Prop :=
  ∀ st, wf st → follows st t (c st).1 ∧ (c st).2 = r.

(** The sources that [create] gives the name [key] in the state [st]. *)
Definition sources_at (st : State) (key : string) : list loc :=
  match last (my_list_source_functions st) with
  | Some top => if bool_decide (name (deref (heap st) top) ≠ key) then [top] else []
  | None => []
  end.

(** The renderer leaves the lists, the statistics and the names alone, and
    a record that has a node keeps having one. *)
Record renders (st st' : State) : Prop := {
  rd_all : my_list_all_functions st' = my_list_all_functions st;
  rd_active : my_list_source_functions st' = my_list_source_functions st;
  rd_info : my_info st' = my_info st;
  rd_clock : clock st' = clock st;
  rd_length : length (heap st') = length (heap st);
  rd_name : ∀ e, name (deref (heap st') e) = name (deref (heap st) e);
  rd_node : ∀ e, is_Some (node (deref (heap st) e)) → is_Some (node (deref (heap st') e)) }.

(** The state after one turn of the loop, when the name has statistics. *)
Definition with_node (methodcall : loc) (st : State) : State :=
  put_heap (<[methodcall := {| name := name (deref (heap st) methodcall);
                               node := Some (handles st) |}]> (heap st))
           (put_handles (S (handles st)) st).

(** ** Two threads in the wrapper *)

(** Where a thread is in [function_wrapper_for_node_storage]: before each
    call of a method of the registry, with the wrapper's local variables.
    [SingletonMetaForCallGraph._lock] is held while [SingletonForCallGraph()]
    looks the instance up and is released before the method runs, so
    nothing keeps the interpreter from running the other thread between two
    of these points. *)
Inductive pc :=
| AtStart
| AtCheck (methodcall : loc)
| AtCount (methodcall : loc)
| AtCreate (methodcall : loc)
| AtSetAll (methodcall : loc)
| AtSetActive (methodcall : loc)
| AtCall (methodcall : loc)
| AtTimer (methodcall : loc) (total_time_in_miliseconds : float) (result : value)
| AtCheckActive (methodcall : loc) (result : value)
| AtDelete (methodcall : loc) (result : value)
| Done (r : result value).

Inductive tid := Thread1 | Thread2.

(** The registry and the two threads. *)
Record config := { shared : State; pc1 : pc; pc2 : pc }.

Section Threads.

(** The decorated function that both threads call; its body takes
    [seconds] and returns [v] without a call of a decorated function. *)
Variables (f : func) (seconds : float) (v : value).

(** One step of a thread: the wrapper's code from one point to the next. *)
Definition thread_step (p : pc) : M pc :=
  match p with
  | AtStart =>
      methodcall <- new_MethodCall (qualified f) ;; ret (AtCheck methodcall)
  | AtCheck methodcall =>
      seen <- exist_entry methodcall AllFunctions ;;
      ret (if seen : bool then AtCount methodcall else AtCreate methodcall)
  | AtCount methodcall =>
      edit_callcounter methodcall ;; ret (AtCall methodcall)
  | AtCreate methodcall =>
      create methodcall 0%float SourceFunctions ;; ret (AtSetAll methodcall)
  | AtSetAll methodcall =>
      set_entry methodcall AllFunctions ;; ret (AtSetActive methodcall)
  | AtSetActive methodcall =>
      set_entry methodcall SourceFunctions ;; ret (AtCall methodcall)
  | AtCall methodcall =>
      start_time <- perf_counter ;;
      sleep seconds ;;
      end_time <- perf_counter ;;
      ret (AtTimer methodcall (milliseconds start_time end_time) v)
  | AtTimer methodcall total_time_in_miliseconds result =>
      edit_timer methodcall total_time_in_miliseconds ;;
      ret (AtCheckActive methodcall result)
  | AtCheckActive methodcall result =>
      active <- exist_entry methodcall SourceFunctions ;;
      ret (if active : bool then AtDelete methodcall result else Done (Ok result))
  | AtDelete methodcall result =>
      delete_entry methodcall SourceFunctions ;; ret (Done (Ok result))
  | Done r => ret (Done r)
  end.

(** A step that raises ends the thread with the exception. *)
Definition advance (p : pc) (st : State) : State * pc :=
  match thread_step p st with
  | (st', Ok p') => (st', p')
  | (st', Exn e) => (st', Done (Exn e))
  end.

Definition pc_of (t : tid) (c : config) : pc :=
  match t with Thread1 => pc1 c | Thread2 => pc2 c end.

Definition other (t : tid) : tid :=
  match t with Thread1 => Thread2 | Thread2 => Thread1 end.

Definition step (t : tid) (c : config) : config :=
  match t with
  | Thread1 =>
      let (st, p) := advance (pc1 c) (shared c) in
      {| shared := st; pc1 := p; pc2 := pc2 c |}
  | Thread2 =>
      let (st, p) := advance (pc2 c) (shared c) in
      {| shared := st; pc1 := pc1 c; pc2 := p |}
  end.

(** A thread that runs alone for [n] steps. *)
Fixpoint alone (n : nat) (p : pc) (st : State) : State * pc :=
  match n with
  | O => (st, p)
  | S n' => let (st', p') := advance p st in alone n' p' st'
  end.

(** A schedule says which thread runs next. *)
Definition interleave (sched : list tid) (c : config) : config :=
  foldl (λ c t, step t c) c sched.

Definition both_start (st : State) : config :=
  {| shared := st; pc1 := AtStart; pc2 := AtStart |}.

Definition finished (c : config) : Prop :=
  (∃ r, pc1 c = Done r) ∧ (∃ r, pc2 c = Done r).

(** The check-then-act sequence of the wrapper: the membership test, and
    the registration or the count that follows it. *)
Definition in_sequence (p : pc) : bool :=
  match p with
  | AtCheck _ | AtCount _ | AtCreate _ | AtSetAll _ | AtSetActive _ => true
  | _ => false
  end.

(** A thread that has made the test and not yet finished what follows. *)
Definition inside_sequence (p : pc) : bool :=
  match p with
  | AtCount _ | AtCreate _ | AtSetAll _ | AtSetActive _ => true
  | _ => false
  end.

(** The schedules that a lock around the check-then-act sequence would
    leave: no thread takes a step of its sequence while the other thread is
    inside its own. *)
Fixpoint exclusive (sched : list tid) (c : config) : bool :=
  match sched with
  | [] => true
  | t :: sched' =>
      negb (in_sequence (pc_of t c) && inside_sequence (pc_of (other t) c))
      && exclusive sched' (step t c)
  end.

(** The record that a thread holds. *)
Definition record_at (p : pc) : option loc :=
  match p with
  | AtStart | Done _ => None
  | AtCheck mc | AtCount mc | AtCreate mc | AtSetAll mc | AtSetActive mc
  | AtCall mc | AtTimer mc _ _ | AtCheckActive mc _ | AtDelete mc _ => Some mc
  end.

(** What a thread has added to the counter of the name so far. *)
Definition counted (p : pc) : Z :=
  match p with
  | AtStart | AtCheck _ | AtCount _ | AtCreate _ => 0
  | _ => 1
  end.

(** A thread that has found the name in the list of all functions, or has
    put it there. *)
Definition listed (p : pc) : bool :=
  match p with
  | AtStart | AtCheck _ | AtCreate _ | AtSetAll _ => false
  | _ => true
  end.

Definition early (p : pc) : bool :=
  match p with AtStart | AtCheck _ => true | _ => false end.

Definition late (p : pc) : bool :=
  match p with
  | AtCall _ | AtTimer _ _ _ | AtCheckActive _ _ | AtDelete _ _ | Done _ => true
  | _ => false
  end.

(** While [p] registers the name, [q] has not made its test; while [p] is
    about to count, [q] has left its sequence. *)
Definition waits (p q : pc) : bool :=
  match p with
  | AtCreate _ | AtSetAll _ | AtSetActive _ => early q
  | AtCount _ => late q
  | _ => true
  end.

Record heap_ok (st : State) : Prop := {
  ho_nodes : Forall (λ mc, node mc = None) (heap st);
  ho_all : Forall (λ e, e < length (heap st))%nat (my_list_all_functions st);
  ho_active : Forall (λ e, e < length (heap st))%nat (my_list_source_functions st) }.

Definition mine (st : State) (p : pc) : Prop :=
  match record_at p with
  | Some mc => (mc < length (heap st))%nat ∧ name (deref (heap st) mc) = qualified f
  | None => True
  end.

(** The invariant of the two threads under exclusive schedules, over the
    names [base] that were registered before. *)
Record tinv (base : list string) (st : State) (p q : pc) : Prop := {
  ti_heap : heap_ok st;
  ti_base : qualified f ∉ base;
  ti_p : mine st p;
  ti_q : mine st q;
  ti_names : names_all st =
             base ++ (if listed p || listed q then [qualified f] else []);
  ti_info : match my_info st !! qualified f with
            | Some i => callcounter i = counted p + counted q
                        ∧ 0 < counted p + counted q
            | None => counted p + counted q = 0
            end;
  ti_waits_p : waits p q = true;
  ti_waits_q : waits q p = true }.

End Threads.

(** ** More vocabulary *)

(** A program in which nothing raises: every call of a decorated function
    returns, and so does the program. *)
Fixpoint quiet (b : body) : bool :=
  match b with
  | Return _ => true
  | Raise _ => false
  | Work _ k => quiet k
  | Call f callee k =>
      quiet callee
      && match calls callee with
         | (_, Ok v) => quiet (k v)
         | (_, Exn _) => false
         end
  | TryCall f callee k => quiet callee && quiet (k (calls callee).2)
  end.

(** The calls that the body of [sum_recursive(a, n)] makes. *)
Fixpoint sum_recursive_calls (n : nat) : list string :=
  match n with
  | O => [qualified TestStoreCalls.print_value_func]
  | S n' => qualified TestStoreCalls.print_value_func
            :: qualified TestStoreCalls.sum_recursive_func
            :: sum_recursive_calls n'
  end.

(** The edges that the renderer draws into the record [e] from its
    [sources], with the nodes that the records have in the store [h]. *)
Definition edges_into (h : list MethodCall) (sources : list loc) (e : loc)
  : list (handle * handle) :=
  omap (λ top, match node (deref h top), node (deref h e) with
               | Some a, Some b => Some (a, b)
               | _, _ => None
               end) sources.

(** The sources that the statistics have for the record [e]. *)
Definition sources_of (st : State) (e : loc) : list loc :=
  from_option source_functions [] (my_info st !! name (deref (heap st) e)).

(** Every active record is a registered record, and the sources of a
    registered function are at most one record, registered before it. *)
Record sources_ok (st : State) : Prop := {
  so_active : my_list_source_functions st ⊆ my_list_all_functions st;
  so_sources : ∀ k e, my_list_all_functions st !! k = Some e →
      sources_of st e = []
      ∨ ∃ j top, (j < k)%nat ∧ my_list_all_functions st !! j = Some top
                 ∧ sources_of st e = [top] }.

(** ** [SingletonMetaForCallGraph.__call__] under threads *)

Module Meta.

(** Identity of a class whose metaclass is [SingletonMetaForCallGraph], and
    address of an instance. *)
Definition cls := nat.
Definition object := nat.

(** The metaclass's attributes [_instances] and [_lock] (whether it is
    held), and the store of the instances made so far, each with its
    class. *)
Record state := {
  _instances : gmap cls object;
  _lock : bool;
  objects : list cls }.

Definition empty : state := {| _instances := ∅; _lock := false; objects := [] |}.

(** Where a thread is in [__call__(cls)], before each statement. *)
Inductive point :=
| AtAcquire (c : cls)
| AtTest (c : cls)
| AtConstruct (c : cls)
| AtStore (c : cls) (instance : object)
| AtRelease (c : cls)
| AtReturn (c : cls)
| Returned (c : cls) (instance : object)
| Raised (key : cls).

(** One statement of a thread.  [with cls._lock:] waits while the lock is
    held; [super().__call__()] makes a new object of the class; the last
    statement, [return cls._instances[cls]], is outside the lock and has a
    [KeyError] when the class has no instance. *)
Definition statement (p : point) (m : state) : state * point :=
  match p with
  | AtAcquire c =>
      if _lock m then (m, AtAcquire c)
      else ({| _instances := _instances m; _lock := true; objects := objects m |},
            AtTest c)
  | AtTest c =>
      (m, if bool_decide (is_Some (_instances m !! c)) then AtRelease c
          else AtConstruct c)
  | AtConstruct c =>
      ({| _instances := _instances m; _lock := _lock m; objects := objects m ++ [c] |},
       AtStore c (length (objects m)))
  | AtStore c instance =>
      ({| _instances := <[c := instance]> (_instances m); _lock := _lock m;
          objects := objects m |},
       AtRelease c)
  | AtRelease c =>
      ({| _instances := _instances m; _lock := false; objects := objects m |},
       AtReturn c)
  | AtReturn c =>
      (m, match _instances m !! c with
          | Some instance => Returned c instance
          | None => Raised c
          end)
  | Returned _ _ | Raised _ => (m, p)
  end.

(** The metaclass and the threads that are in [__call__]. *)
Record world := { meta : state; threads : list point }.

(** The thread [t] runs its next statement. *)
Definition turn (t : nat) (w : world) : world :=
  match threads w !! t with
  | Some p =>
      let (m, p') := statement p (meta w) in
      {| meta := m; threads := <[t := p']> (threads w) |}
  | None => w
  end.

Definition schedule (sched : list nat) (w : world) : world :=
  foldl (λ w t, turn t w) w sched.

(** Every thread is about to call its class, in the metaclass state [m]. *)
Definition start (m : state) (classes : list cls) : world :=
  {| meta := m; threads := AtAcquire <$> classes |}.

(** The statements between taking the lock and giving it back. *)
Definition locked (p : point) : bool :=
  match p with
  | AtTest _ | AtConstruct _ | AtStore _ _ | AtRelease _ => true
  | _ => false
  end.

(** The invariant of the metaclass and its threads. *)
Record safe (w : world) : Prop := {
  sf_lock : ∀ t p, threads w !! t = Some p → locked p = true → _lock (meta w) = true;
  sf_alone : ∀ t t' p p', threads w !! t = Some p → threads w !! t' = Some p' →
                          locked p = true → locked p' = true → t = t';
  sf_instance : ∀ c i, _instances (meta w) !! c = Some i → objects (meta w) !! i = Some c;
  sf_store : ∀ t c i, threads w !! t = Some (AtStore c i) →
                      _instances (meta w) !! c = None ∧ objects (meta w) !! i = Some c;
  sf_object : ∀ c j, objects (meta w) !! j = Some c →
                     _instances (meta w) !! c = Some j
                     ∨ ∃ t, threads w !! t = Some (AtStore c j);
  sf_construct : ∀ t c, threads w !! t = Some (AtConstruct c) →
                        _instances (meta w) !! c = None;
  sf_release : ∀ t c, threads w !! t = Some (AtRelease c) →
                      is_Some (_instances (meta w) !! c);
  sf_return : ∀ t c, threads w !! t = Some (AtReturn c) →
                     is_Some (_instances (meta w) !! c);
  sf_returned : ∀ t c i, threads w !! t = Some (Returned c i) →
                         _instances (meta w) !! c = Some i;
  sf_raised : ∀ t c, threads w !! t ≠ Some (Raised c) }.

(** The class a thread called. *)
Definition class_of (p : point) : cls :=
  match p with
  | AtAcquire c | AtTest c | AtConstruct c | AtStore c _ | AtRelease c
  | AtReturn c | Returned c _ | Raised c => c
  end.

(** The call is over. *)
Definition over (p : point) : bool :=
  match p with
  | Returned _ _ | Raised _ => true
  | _ => false
  end.

(** A lock that is held is held by a thread. *)
Definition held (w : world) : Prop :=
  _lock (meta w) = true → ∃ t p, threads w !! t = Some p ∧ locked p = true.

End Meta.

(** * Proofs *)

(** ** The store *)

Lemma deref_app_old h mc e : (e < length h)%nat → deref (h ++ [mc]) e = deref h e.
Proof. intros He. unfold deref. by rewrite lookup_app_l. Qed.

Lemma deref_app_new h mc : deref (h ++ [mc]) (length h) = mc.
Proof. unfold deref. by rewrite list_lookup_middle. Qed.

Lemma names_app_old h mc l :
  Forall (λ e, e < length h)%nat l → names (h ++ [mc]) l = names h l.
Proof.
  intros Hl. unfold names. apply list_fmap_ext.
  intros i e Hi. simpl. rewrite deref_app_old; [done|].
  by apply (Forall_lookup_1 _ _ _ _ Hl Hi).
Qed.

Lemma names_app h l1 l2 : names h (l1 ++ l2) = names h l1 ++ names h l2.
Proof. unfold names. by rewrite fmap_app. Qed.

Lemma deref_node_None h e :
  Forall (λ mc, node mc = None) h → node (deref h e) = None.
Proof.
  intros Hh. unfold deref. destruct (h !! e) as [mc|] eqn:E; [|done].
  simpl. by apply (Forall_lookup_1 _ _ _ _ Hh E).
Qed.

(** ** Python's comparisons, when no record has a node *)

Lemma py_same_names h x e :
  Forall (λ mc, node mc = None) h →
  py_same h x e = bool_decide (name (deref h e) = name (deref h x)).
Proof.
  intros Hh. unfold py_same, MethodCall_eq.
  rewrite !(deref_node_None _ _ Hh).
  rewrite (bool_decide_eq_true_2 (None = None)) by done.
  rewrite andb_true_r.
  destruct (decide (e = x)) as [->|Hne].
  - by rewrite !bool_decide_eq_true_2.
  - by rewrite (bool_decide_eq_false_2 (e = x)).
Qed.

Lemma py_in_names h x l :
  Forall (λ mc, node mc = None) h →
  py_in h x l = bool_decide (name (deref h x) ∈ names h l).
Proof.
  intros Hh. unfold py_in. induction l as [|e l IH].
  - symmetry. apply bool_decide_eq_false_2, not_elem_of_nil.
  - cbn [existsb]. rewrite IH, (py_same_names _ _ _ Hh), <- bool_decide_or.
    apply bool_decide_ext. unfold names. rewrite fmap_cons, elem_of_cons.
    split; (intros [Heq|Hin]; [left; congruence | by right]).
Qed.

Lemma filter_all {A} (P : A → Prop) `{!∀ x, Decision (P x)} (l : list A) :
  Forall P l → filter P l = l.
Proof.
  induction 1 as [|x l Hx _ IH]; [done|].
  by rewrite filter_cons_True, IH.
Qed.

Lemma py_remove_names h x l :
  Forall (λ mc, node mc = None) h →
  NoDup (names h l) →
  name (deref h x) ∈ names h l →
  py_remove h x l = Some (filter (λ e, name (deref h e) ≠ name (deref h x)) l).
Proof.
  intros Hh. induction l as [|e l IH]; intros Hnd Hin.
  - by apply elem_of_nil in Hin.
  - unfold names in Hnd, Hin. rewrite fmap_cons in Hnd, Hin.
    apply NoDup_cons in Hnd as [Hnotin Hnd]. simpl.
    rewrite (py_same_names _ _ _ Hh). rewrite filter_cons.
    case_bool_decide as Heq.
    + rewrite decide_False by (intros Hc; by apply Hc).
      f_equal. symmetry. apply filter_all.
      apply Forall_forall. intros e' He' Hc. apply Hnotin.
      rewrite Heq, <- Hc. apply (list_elem_of_fmap_2 (λ e, name (deref h e))). done.
    + rewrite decide_True by done.
      apply elem_of_cons in Hin as [Hc|Hin]; [congruence|].
      by rewrite (IH Hnd Hin).
Qed.

(** ** The first half of the wrapper *)

Local Arguments py_in : simpl never.
Local Arguments names : simpl never.

Lemma wf_heap_new st f :
  wf st → Forall (λ mc, node mc = None) (heap st ++ [record_of f]).
Proof. intros Hwf. apply Forall_app. split; [apply Hwf|]. by apply Forall_singleton. Qed.

Lemma seen_fresh st f :
  wf st →
  py_in (heap st ++ [record_of f]) (length (heap st)) (my_list_all_functions st)
  = bool_decide (is_Some (my_info st !! qualified f)).
Proof.
  intros Hwf. rewrite (py_in_names _ _ _ (wf_heap_new _ _ Hwf)).
  rewrite deref_app_new, names_app_old by apply Hwf.
  apply bool_decide_ext. symmetry. apply (wf_info _ Hwf).
Qed.

(** A later call: the counter of the name goes up by one. *)
Lemma before_call_seen f st i :
  wf st → my_info st !! qualified f = Some i →
  before_call f st =
    ({| heap := heap st ++ [record_of f];
        my_list_all_functions := my_list_all_functions st;
        my_list_source_functions := my_list_source_functions st;
        my_info := <[qualified f :=
                       {| timer := timer i; callcounter := callcounter i + 1;
                          start := start i;
                          source_functions := source_functions i |}]> (my_info st);
        clock := clock st; handles := handles st |},
     Ok (length (heap st), clock st)).
Proof.
  intros Hwf Hi.
  unfold before_call, bind, new_MethodCall, exist_entry, gets. cbn.
  change {| name := qualified f; node := None |} with (record_of f).
  rewrite (seen_fresh _ _ Hwf), Hi.
  rewrite bool_decide_eq_true_2 by done.
  unfold edit_callcounter, bind, name_of, info_of, set_info, gets, modify,
    perf_counter, ret. cbn.
  rewrite deref_app_new. cbn. rewrite Hi. done.
Qed.

(** A first call: the name gets its statistics, with the top of the active
    list as its source, and the new record goes to both lists. *)
Lemma before_call_new f st :
  wf st → my_info st !! qualified f = None →
  before_call f st =
    ({| heap := heap st ++ [record_of f];
        my_list_all_functions := my_list_all_functions st ++ [length (heap st)];
        my_list_source_functions := my_list_source_functions st ++ [length (heap st)];
        my_info := <[qualified f :=
                       {| timer := 0%float; callcounter := 1; start := clock st;
                          source_functions :=
                            match last (my_list_source_functions st) with
                            | Some top => [top]
                            | None => []
                            end |}]> (my_info st);
        clock := clock st; handles := handles st |},
     Ok (length (heap st), clock st)).
Proof.
  intros Hwf Hi.
  unfold before_call, bind, new_MethodCall, exist_entry, gets. cbn.
  change {| name := qualified f; node := None |} with (record_of f).
  rewrite (seen_fresh _ _ Hwf), Hi.
  rewrite bool_decide_eq_false_2 by (intros [? ?]; done).
  unfold create, set_source_functions, set_entry, bind, name_of, info_of,
    set_info, gets, modify, perf_counter, ret. cbn.
  rewrite deref_app_new. cbn.
  destruct (last (my_list_source_functions st)) as [top|] eqn:Etop; cbn; [|done].
  assert (Hname : name (deref (heap st ++ [record_of f]) top) ≠ qualified f).
  { apply last_Some_elem_of in Etop.
    rewrite deref_app_old
      by (by apply (proj1 (Forall_forall _ _) (wf_active _ Hwf))).
    intros Hc.
    assert (Hin : qualified f ∈ names_all st).
    { apply (wf_active_all _ Hwf). rewrite <- Hc.
      by apply (list_elem_of_fmap_2 (λ e, name (deref (heap st) e))). }
    apply (wf_info _ Hwf) in Hin as [? ?]. congruence. }
  rewrite !deref_app_new. cbn [name record_of].
  rewrite bool_decide_eq_true_2 by done. cbn.
  rewrite lookup_insert_eq. cbn. by rewrite insert_insert_eq.
Qed.

(** ** The second half of the wrapper *)

(** The time goes to the name's timer, and the record of that name leaves
    the active list, when there is one. *)
Lemma after_call_ok methodcall start_time st i :
  wf st →
  my_info st !! name (deref (heap st) methodcall) = Some i →
  after_call methodcall start_time st =
    ({| heap := heap st;
        my_list_all_functions := my_list_all_functions st;
        my_list_source_functions :=
          filter (λ e, name (deref (heap st) e) ≠ name (deref (heap st) methodcall))
                 (my_list_source_functions st);
        my_info := <[name (deref (heap st) methodcall) :=
                       {| timer := PrimFloat.add (timer i)
                                     (milliseconds start_time (clock st));
                          callcounter := callcounter i; start := start i;
                          source_functions := source_functions i |}]> (my_info st);
        clock := clock st; handles := handles st |},
     Ok tt).
Proof.
  intros Hwf Hi.
  unfold after_call, bind, perf_counter, edit_timer, name_of, info_of, set_info,
    exist_entry, delete_entry, gets, modify, ret. cbn.
  unfold bind. rewrite Hi. cbn.
  rewrite (py_in_names _ _ _ (wf_nodes _ Hwf)).
  case_bool_decide as Hin.
  - cbn. rewrite (py_remove_names _ _ _ (wf_nodes _ Hwf) (wf_active_nodup _ Hwf) Hin).
    done.
  - cbn. rewrite filter_all; [done|].
    apply Forall_forall. intros e He Hc. apply Hin. rewrite <- Hc.
    by apply (list_elem_of_fmap_2 (λ e, name (deref (heap st) e))).
Qed.

(** ** From one state to a later one *)

Lemma times_nil n : times n [] = 0.
Proof. done. Qed.

Lemma times_app n t1 t2 : times n (t1 ++ t2) = times n t1 + times n t2.
Proof. unfold times. rewrite filter_app, length_app. lia. Qed.

Lemma times_cons n m t :
  times n (m :: t) = (if decide (m = n) then 1 else 0) + times n t.
Proof.
  unfold times. rewrite filter_cons. destruct (decide (m = n)); cbn [length]; lia.
Qed.

Lemma register_app acc t1 t2 :
  register acc (t1 ++ t2) = register (register acc t1) t2.
Proof. unfold register. apply foldl_app. Qed.

Lemma follows_refl st : wf st → follows st [] st.
Proof.
  intros Hwf. split; try done.
  - intros n. rewrite times_nil. lia.
  - intros n i Hi. by exists i.
Qed.

Lemma follows_trans st1 t1 st2 t2 st3 :
  follows st1 t1 st2 → follows st2 t2 st3 → follows st1 (t1 ++ t2) st3.
Proof.
  intros H12 H23. split.
  - apply H23.
  - rewrite register_app, <- (fl_names _ _ _ H12). apply H23.
  - intros n. rewrite times_app, (fl_counter _ _ _ H23), (fl_counter _ _ _ H12). lia.
  - intros n i Hi.
    destruct (fl_sources _ _ _ H12 _ _ Hi) as (i2 & Hi2 & E2).
    destruct (fl_sources _ _ _ H23 _ _ Hi2) as (i3 & Hi3 & E3).
    exists i3. split; [done|congruence].
  - etrans; [apply H12|apply H23].
Qed.

Lemma names_filter h n l :
  names h (filter (λ e, name (deref h e) ≠ n) l) = filter (λ m, m ≠ n) (names h l).
Proof.
  unfold names. induction l as [|e l IH]; [done|].
  rewrite fmap_cons, !filter_cons.
  destruct (decide (name (deref h e) ≠ n)); [rewrite fmap_cons|]; by rewrite IH.
Qed.

Lemma valid_app (h : list MethodCall) mc (l : list loc) :
  Forall (λ e, e < length h)%nat l → Forall (λ e, e < length (h ++ [mc]))%nat l.
Proof.
  intros Hl. eapply Forall_impl; [exact Hl|].
  intros e He. cbn beta in *. rewrite length_app. lia.
Qed.

Lemma valid_new (h : list MethodCall) mc :
  Forall (λ e, e < length (h ++ [mc]))%nat [length h].
Proof. apply Forall_singleton. rewrite length_app. cbn. lia. Qed.

Lemma names_new h mc : names (h ++ [mc]) [length h] = [name mc].
Proof. unfold names. cbn. by rewrite deref_app_new. Qed.

(** ** The two halves keep the invariant and count the call *)

Lemma before_call_seen_follows f st i :
  wf st → my_info st !! qualified f = Some i →
  follows st [qualified f] (before_call f st).1.
Proof.
  intros Hwf Hi. rewrite (before_call_seen _ _ _ Hwf Hi). cbn [fst].
  assert (Hin : qualified f ∈ names_all st) by (apply (wf_info _ Hwf); eauto).
  split.
  - split; unfold names_all, names_active; cbn.
    + by apply wf_heap_new.
    + apply valid_app, Hwf.
    + apply valid_app, Hwf.
    + rewrite names_app_old by apply Hwf. apply Hwf.
    + rewrite names_app_old by apply Hwf. apply Hwf.
    + rewrite !names_app_old by apply Hwf. apply Hwf.
    + intros n. rewrite names_app_old by apply Hwf.
      rewrite <- (wf_info _ Hwf n), lookup_insert.
      destruct (decide (qualified f = n)) as [<-|]; [|done].
      rewrite Hi. split; eauto.
  - unfold names_all. cbn. rewrite names_app_old by apply Hwf.
    by rewrite decide_True.
  - intros n. rewrite times_cons, times_nil. unfold counter. cbn.
    rewrite lookup_insert.
    destruct (decide (qualified f = n)) as [<-|]; cbn; [rewrite Hi; cbn|]; lia.
  - intros n i' Hi'. cbn. rewrite lookup_insert.
    destruct (decide (qualified f = n)) as [<-|]; [|by exists i'].
    eexists. split; [done|]. cbn. congruence.
  - by apply prefix_app_r.
Qed.

Lemma before_call_new_follows f st :
  wf st → my_info st !! qualified f = None →
  follows st [qualified f] (before_call f st).1.
Proof.
  intros Hwf Hi. rewrite (before_call_new _ _ Hwf Hi). cbn [fst].
  assert (Hnin : qualified f ∉ names_all st).
  { intros Hin. apply (wf_info _ Hwf) in Hin as [? ?]. congruence. }
  assert (Hnin' : qualified f ∉ names_active st).
  { intros Hin. by apply Hnin, (wf_active_all _ Hwf). }
  split.
  - split; unfold names_all, names_active; cbn.
    + by apply wf_heap_new.
    + apply Forall_app. split; [apply valid_app, Hwf|apply valid_new].
    + apply Forall_app. split; [apply valid_app, Hwf|apply valid_new].
    + rewrite names_app, names_new, names_app_old by apply Hwf.
      apply NoDup_app. split_and!; [apply Hwf| |apply NoDup_singleton].
      intros n Hn ->%list_elem_of_singleton. by apply Hnin.
    + rewrite names_app, names_new, names_app_old by apply Hwf.
      apply NoDup_app. split_and!; [apply Hwf| |apply NoDup_singleton].
      intros n Hn ->%list_elem_of_singleton. by apply Hnin'.
    + rewrite !names_app, !names_new, !names_app_old by apply Hwf.
      intros n [Hn|Hn]%elem_of_app; apply elem_of_app; [left|by right].
      by apply (wf_active_all _ Hwf).
    + intros n. rewrite names_app, names_new, names_app_old by apply Hwf.
      rewrite elem_of_app, list_elem_of_singleton, <- (wf_info _ Hwf n), lookup_insert.
      cbn. destruct (decide (qualified f = n)) as [<-|Hne].
      * split; [by right|eauto].
      * split; [by left|]. intros [?|?]; [done|congruence].
  - unfold names_all. cbn.
    rewrite names_app, names_new, names_app_old by apply Hwf.
    by rewrite decide_False.
  - intros n. rewrite times_cons, times_nil. unfold counter. cbn.
    rewrite lookup_insert.
    destruct (decide (qualified f = n)) as [<-|]; cbn; [rewrite Hi; cbn|]; lia.
  - intros n i' Hi'. cbn. rewrite lookup_insert.
    destruct (decide (qualified f = n)) as [<-|]; [congruence|by exists i'].
  - by apply prefix_app_r.
Qed.

Lemma after_call_follows methodcall start_time st i :
  wf st →
  my_info st !! name (deref (heap st) methodcall) = Some i →
  follows st [] (after_call methodcall start_time st).1.
Proof.
  intros Hwf Hi. rewrite (after_call_ok _ _ _ _ Hwf Hi). cbn [fst].
  split.
  - split; unfold names_all, names_active; cbn; try apply Hwf.
    + apply Forall_forall. intros e [_ He]%list_elem_of_filter.
      by apply (proj1 (Forall_forall _ _) (wf_active _ Hwf)).
    + rewrite names_filter. apply NoDup_filter, Hwf.
    + rewrite names_filter. intros n [_ Hn]%list_elem_of_filter.
      by apply (wf_active_all _ Hwf).
    + intros n. rewrite <- (wf_info _ Hwf n), lookup_insert.
      destruct (decide (name (deref (heap st) methodcall) = n)) as [<-|]; [|done].
      rewrite Hi. split; eauto.
  - done.
  - intros n. rewrite times_nil. unfold counter. cbn. rewrite lookup_insert.
    destruct (decide (_ = n)) as [<-|]; cbn; [rewrite Hi; cbn|]; lia.
  - intros n i' Hi'. cbn. rewrite lookup_insert.
    destruct (decide (_ = n)) as [<-|]; [|by exists i'].
    eexists. split; [done|]. cbn. congruence.
  - done.
Qed.

Lemma sleep_follows seconds st : wf st → follows st [] (sleep seconds st).1.
Proof.
  intros Hwf. split; cbn.
  - split; unfold names_all, names_active; cbn; apply Hwf.
  - done.
  - intros n. rewrite times_nil. unfold counter. cbn. lia.
  - intros n i Hi. by exists i.
  - done.
Qed.

(** ** The wrapper as its two halves around the call *)

Lemma wrapper_phases {A} (f : func) (call : M A) st :
  function_wrapper_for_node_storage f call st =
  (x <- before_call f ;; result <- call ;; after_call x.1 x.2 ;; ret result) st.
Proof.
  unfold function_wrapper_for_node_storage, before_call, after_call, bind,
    perf_counter, gets, ret.
  repeat (cbn [fst snd];
          match goal with
          | |- context [match ?c with _ => _ end] =>
              lazymatch c with
              | context [match _ with _ => _ end] => fail
              | _ => destruct c
              end
          end); reflexivity.
Qed.

Lemma deref_prefix h h' e :
  h `prefix_of` h' → (e < length h)%nat → deref h' e = deref h e.
Proof.
  intros [k ->] He. unfold deref. by rewrite lookup_app_l.
Qed.

Lemma before_call_spec f st :
  wf st →
  ∃ st1, before_call f st = (st1, Ok (length (heap st), clock st))
         ∧ follows st [qualified f] st1
         ∧ heap st1 = heap st ++ [record_of f]
         ∧ is_Some (my_info st1 !! qualified f).
Proof.
  intros Hwf. destruct (my_info st !! qualified f) as [i|] eqn:Hi.
  - pose proof (before_call_seen_follows _ _ _ Hwf Hi) as Hf.
    rewrite (before_call_seen _ _ _ Hwf Hi) in Hf |- *.
    eexists. split_and!; [done|exact Hf|done|].
    cbn. rewrite lookup_insert_eq. eauto.
  - pose proof (before_call_new_follows _ _ Hwf Hi) as Hf.
    rewrite (before_call_new _ _ Hwf Hi) in Hf |- *.
    eexists. split_and!; [done|exact Hf|done|].
    cbn. rewrite lookup_insert_eq. eauto.
Qed.

Lemma bind_behaves {A B} (c : M A) (k : A → M B) t v t' r :
  behaves c t (Ok v) → behaves (k v) t' r → behaves (bind c k) (t ++ t') r.
Proof.
  intros Hc Hk st Hwf. destruct (Hc st Hwf) as [Hf Hr].
  unfold bind. destruct (c st) as [st1 r1]. cbn in Hf, Hr. subst r1.
  destruct (Hk st1 (fl_wf _ _ _ Hf)) as [Hf' Hr'].
  split; [|done]. by eapply follows_trans.
Qed.

Lemma bind_behaves_exn {A B} (c : M A) (k : A → M B) t e :
  behaves c t (Exn e) → behaves (bind c k) t (Exn e).
Proof.
  intros Hc st Hwf. destruct (Hc st Hwf) as [Hf Hr].
  unfold bind. destruct (c st) as [st1 r1]. cbn in Hf, Hr. by subst r1.
Qed.

Lemma catch_behaves {A} (c : M A) t r : behaves c t r → behaves (catch c) t (Ok r).
Proof.
  intros Hc st Hwf. destruct (Hc st Hwf) as [Hf Hr].
  unfold catch. destruct (c st) as [st1 r1]. cbn in Hf, Hr. by subst r1.
Qed.

(** The state in which the decorated function starts, the state in which
    it ends, and what the wrapper makes of them. *)
Lemma wrapper_run {A} (f : func) (call : M A) t r st :
  behaves call t r → wf st →
  ∃ st1 st2,
    before_call f st = (st1, Ok (length (heap st), clock st))
    ∧ follows st [qualified f] st1
    ∧ call st1 = (st2, r)
    ∧ follows st1 t st2
    ∧ deref (heap st2) (length (heap st)) = record_of f
    ∧ is_Some (my_info st2 !! qualified f)
    ∧ register_method f call st =
        match r with
        | Ok v => ((after_call (length (heap st)) (clock st) st2).1, Ok v)
        | Exn e => (st2, Exn e)
        end
    ∧ follows st2 [] (after_call (length (heap st)) (clock st) st2).1.
Proof.
  intros Hcall Hwf.
  destruct (before_call_spec f st Hwf) as (st1 & Hb & Hf1 & Hh1 & Hi1).
  destruct (Hcall st1 (fl_wf _ _ _ Hf1)) as [Hf2 Hr].
  destruct (call st1) as [st2 r'] eqn:Hc. cbn in Hf2, Hr. subst r'.
  assert (Hd : deref (heap st2) (length (heap st)) = record_of f).
  { rewrite (deref_prefix _ _ _ (fl_heap _ _ _ Hf2)).
    - rewrite Hh1. apply deref_app_new.
    - rewrite Hh1, length_app. cbn. lia. }
  assert (Hi2 : is_Some (my_info st2 !! qualified f)).
  { destruct Hi1 as [i1 Hi1].
    destruct (fl_sources _ _ _ Hf2 _ _ Hi1) as (i2 & Hi2 & _). eauto. }
  assert (Hf3 : follows st2 [] (after_call (length (heap st)) (clock st) st2).1).
  { destruct Hi2 as [i2 Hi2].
    apply (after_call_follows _ _ _ i2 (fl_wf _ _ _ Hf2)). by rewrite Hd. }
  exists st1, st2. split_and!; try done.
  unfold register_method. rewrite wrapper_phases.
  unfold bind at 1. rewrite Hb. cbn [fst snd].
  unfold bind at 1. rewrite Hc. destruct r as [v|e]; [|done].
  destruct Hi2 as [i2 Hi2].
  unfold bind at 1.
  rewrite (after_call_ok _ _ _ i2 (fl_wf _ _ _ Hf2)) by (by rewrite Hd). done.
Qed.

Lemma wrapper_behaves {A} (f : func) (call : M A) t r :
  behaves call t r → behaves (register_method f call) (qualified f :: t) r.
Proof.
  intros Hcall st Hwf.
  destruct (wrapper_run f call t r st Hcall Hwf)
    as (st1 & st2 & _ & Hf1 & _ & Hf2 & _ & _ & -> & Hf3).
  destruct r as [v|e]; cbn [fst snd]; (split; [|done]).
  - replace (qualified f :: t) with ([qualified f] ++ t ++ []) by (by rewrite app_nil_r).
    eapply follows_trans; [done|]. by eapply follows_trans.
  - change (qualified f :: t) with ([qualified f] ++ t). by eapply follows_trans.
Qed.

(** A program makes the calls that [calls] lists and ends as [calls] says:
    the wrapper changes neither. *)
Lemma run_behaves (b : body) : behaves (run b) (calls b).1 (calls b).2.
Proof.
  induction b as [v|e|seconds k IH|f callee IHc k IHk|f callee IHc k IHk]; cbn [run calls].
  - intros st Hwf. split; [by apply follows_refl|done].
  - intros st Hwf. split; [by apply follows_refl|done].
  - apply (bind_behaves _ _ [] tt); [|done].
    intros st Hwf. split; [by apply sleep_follows|done].
  - apply wrapper_behaves with (f := f) in IHc.
    destruct (calls callee) as [t [v|e]]; cbn [fst snd] in *.
    + specialize (IHk v). destruct (calls (k v)) as [t' r]. cbn [fst snd] in *.
      change (qualified f :: t ++ t') with ((qualified f :: t) ++ t').
      by eapply bind_behaves.
    + by apply bind_behaves_exn.
  - apply wrapper_behaves with (f := f), catch_behaves in IHc.
    destruct (calls callee) as [t r1]; cbn [fst snd] in *.
    specialize (IHk r1). destruct (calls (k r1)) as [t' r]. cbn [fst snd] in *.
    change (qualified f :: t ++ t') with ((qualified f :: t) ++ t').
    by eapply bind_behaves.
Qed.

Lemma wf_init : wf __init__.
Proof.
  split; unfold names_all, names_active; cbn; try by constructor.
  - done.
  - intros n. rewrite lookup_empty. split; [by intros [? ?]|by intros ?%elem_of_nil].
Qed.

Lemma run_all_follows bs st : wf st → follows st (calls_all bs) (run_all bs st).
Proof.
  revert st. induction bs as [|b bs IH]; intros st Hwf; [by apply follows_refl|].
  unfold calls_all. rewrite fmap_cons. cbn [concat run_all foldl].
  destruct (run_behaves b st Hwf) as [Hf _].
  eapply follows_trans; [exact Hf|]. apply IH, Hf.
Qed.

Lemma reachable_wf st : reachable st → wf st.
Proof.
  intros [bs ->]. apply (fl_wf _ _ _ (run_all_follows bs __init__ wf_init)).
Qed.

Lemma run_all_app bs bs' st : run_all (bs ++ bs') st = run_all bs' (run_all bs st).
Proof. unfold run_all. apply foldl_app. Qed.

Lemma calls_all_app bs bs' : calls_all (bs ++ bs') = calls_all bs ++ calls_all bs'.
Proof. unfold calls_all. by rewrite fmap_app, concat_app. Qed.

(** The state in which a decorated function starts is the end of the
    history in which the function raises at once. *)
Lemma before_call_run f st :
  wf st → (before_call f st).1 = (run (Call f (Raise ValueError) Return) st).1.
Proof.
  intros Hwf. cbn [run].
  destruct (wrapper_run f (raise ValueError : M value) [] (Exn ValueError) st)
    as (st1 & st2 & Hb & _ & Hc & _ & _ & _ & Hw & _); [|done|].
  { intros s Hs. split; [by apply follows_refl|done]. }
  injection Hc as <-. unfold bind. by rewrite Hw, Hb.
Qed.

(** ** Registering in the order of the first calls *)

Lemma register_first_seen acc t :
  register acc t = acc ++ filter (λ m, m ∉ acc) (first_seen t).
Proof.
  revert acc. induction t as [|n t IH]; intros acc.
  - cbn. by rewrite app_nil_r.
  - cbn [first_seen]. unfold register. cbn [foldl]. fold (register (if decide (n ∈ acc) then acc else acc ++ [n]) t).
    rewrite IH, filter_cons, list_filter_filter.
    destruct (decide (n ∈ acc)) as [Hin|Hnin].
    + rewrite decide_False by (intros Hc; by apply Hc).
      f_equal. apply list_filter_iff. intros m. split; [|by intros [? _]].
      intros Hm. split; [done|]. intros ->. by apply Hm.
    + rewrite decide_True by done. rewrite <- app_assoc. cbn. do 2 f_equal.
      apply list_filter_iff. intros m.
      rewrite elem_of_app, list_elem_of_singleton. tauto.
Qed.

Lemma register_nil t : register [] t = first_seen t.
Proof.
  rewrite register_first_seen. cbn. apply filter_all.
  apply Forall_forall. intros m _. apply not_elem_of_nil.
Qed.

Lemma elem_of_first_seen n t : n ∈ first_seen t ↔ n ∈ t.
Proof.
  induction t as [|m t IH]; [done|]. cbn [first_seen].
  rewrite !elem_of_cons, list_elem_of_filter, IH.
  destruct (decide (n = m)); tauto.
Qed.

Lemma times_pos n t : 0 < times n t ↔ n ∈ t.
Proof.
  induction t as [|m t IH].
  - rewrite times_nil. split; [lia|by intros ?%elem_of_nil].
  - rewrite times_cons, elem_of_cons.
    assert (0 ≤ times n t) by (unfold times; lia).
    destruct (decide (m = n)) as [->|Hne].
    + split; [by left|lia].
    + rewrite Z.add_0_l, IH. split; [by right|]. intros [?|?]; [congruence|done].
Qed.

(** What a history leaves in the registry of a new process. *)
Lemma run_all_init (bs : list body) :
  let st := run_all bs __init__ in
  wf st
  ∧ names_all st = first_seen (calls_all bs)
  ∧ ∀ n, counter st n = times n (calls_all bs).
Proof.
  pose proof (run_all_follows bs __init__ wf_init) as Hf.
  split_and!; [apply Hf| |].
  - rewrite (fl_names _ _ _ Hf). apply register_nil.
  - intros n. rewrite (fl_counter _ _ _ Hf). unfold counter. cbn.
    rewrite lookup_empty. cbn. lia.
Qed.

Lemma calls_all_one b : calls_all [b] = (calls b).1.
Proof. unfold calls_all. cbn. apply app_nil_r. Qed.

(** ** Families of programs *)

Lemma calls_call_each f bodies :
  (calls (call_each f bodies)).1 = concat ((λ c, qualified f :: (calls c).1) <$> bodies).
Proof.
  induction bodies as [|c cs IH]; [done|].
  cbn [call_each calls]. rewrite fmap_cons. cbn [concat].
  destruct (calls c) as [t r].
  destruct (calls (call_each f cs)) as [t' r']. cbn in *. by rewrite IH.
Qed.

Lemma times_not_elem n t : n ∉ t → times n t = 0.
Proof.
  intros Hn. destruct (decide (0 < times n t)) as [Hp|Hp].
  - by apply times_pos in Hp.
  - unfold times in *. lia.
Qed.

Lemma times_call_each f bodies :
  Forall (λ c, qualified f ∉ (calls c).1) bodies →
  times (qualified f) (calls (call_each f bodies)).1 = Z.of_nat (length bodies).
Proof.
  rewrite calls_call_each. induction 1 as [|c cs Hc _ IH]; [done|].
  rewrite fmap_cons. cbn [concat length].
  rewrite times_app, times_cons, decide_True, (times_not_elem _ _ Hc), IH by done. lia.
Qed.

Lemma calls_recursion f K :
  calls (recursion f K) = (replicate K (qualified f), Ok VNone).
Proof.
  induction K as [|K IH]; [done|].
  cbn [recursion calls]. rewrite IH. cbn. by rewrite app_nil_r.
Qed.

Lemma first_seen_replicate n K : first_seen (replicate (S K) n) = [n].
Proof.
  induction K as [|K IH]; [done|].
  change (replicate (S (S K)) n) with (n :: replicate (S K) n).
  cbn [first_seen]. rewrite IH. cbn. by rewrite decide_False by (intros Hc; by apply Hc).
Qed.

(** * The claims *)

(** C5, as the code has it.  In a process that runs nothing but decorated
    functions, one after the other from a new registry, the [callcounter]
    of a name is the number of calls of that name, and only called names
    have statistics; a function called [N] times by a caller, and never by
    itself, has the count [N]. *)
Theorem callcounter_counts_calls :
  (∀ (bs : list body) (n : string),
     let st := run_all bs __init__ in
     match my_info st !! n with
     | Some i => callcounter i = times n (calls_all bs) ∧ n ∈ calls_all bs
     | None => n ∉ calls_all bs
     end)
  ∧ (∀ (f : func) (bodies : list body),
       Forall (λ c, qualified f ∉ (calls c).1) bodies →
       bodies ≠ [] →
       callcounter <$> my_info (run (call_each f bodies) __init__).1 !! qualified f
       = Some (Z.of_nat (length bodies))).
Proof.
  assert (Hgen : ∀ (bs : list body) (n : string),
     match my_info (run_all bs __init__) !! n with
     | Some i => callcounter i = times n (calls_all bs) ∧ n ∈ calls_all bs
     | None => n ∉ calls_all bs
     end).
  { intros bs n. destruct (run_all_init bs) as (Hwf & Hnames & Hcount).
    specialize (Hcount n). unfold counter in Hcount.
    pose proof (wf_info _ Hwf n) as Hinfo. rewrite Hnames, elem_of_first_seen in Hinfo.
    destruct (my_info (run_all bs __init__) !! n) as [i|]; cbn in Hcount.
    - split; [done|]. apply Hinfo. eauto.
    - intros Hin. apply Hinfo in Hin as [? ?]. done. }
  split; [exact Hgen|].
  intros f bodies Hrec Hne.
  specialize (Hgen [call_each f bodies] (qualified f)).
  rewrite calls_all_one, (times_call_each _ _ Hrec) in Hgen.
  change (run_all [call_each f bodies] __init__)
    with (run (call_each f bodies) __init__).1 in Hgen.
  destruct (my_info _ !! qualified f) as [i|]; cbn.
  - f_equal. apply Hgen.
  - exfalso. apply Hgen. rewrite calls_call_each.
    destruct bodies as [|c cs]; [done|]. rewrite fmap_cons. cbn. apply list_elem_of_here.
Qed.

Lemma callcounter_counts_calls_witness :
  callcounter <$>
    my_info (run (call_each TestStoreCalls.print_value_func
                    [Return VNone; Raise ValueError; Return (VInt 7)]) __init__).1
    !! qualified TestStoreCalls.print_value_func
  = Some 3.
Proof.
  apply (proj2 callcounter_counts_calls TestStoreCalls.print_value_func
           [Return VNone; Raise ValueError; Return (VInt 7)]).
  - repeat constructor; vm_compute; by intros ?%elem_of_nil.
  - done.
Defined.

(** C5 fails as stated: a function that is called, drawn by
    [make_graphviz_chart] and called again has completed two invocations,
    all three have returned, and its [callcounter] is 1. *)
Lemma rendered_call_counted_once :
  let st1 := (run Example.one_call __init__).1 in
  let st2 := (make_graphviz_chart st1).1 in
  let st3 := (run Example.one_call st2).1 in
  (run Example.one_call __init__).2 = Ok VNone
  ∧ callcounter <$> my_info st1 !! qualified Example.callee = Some 1
  ∧ (make_graphviz_chart st1).2 = Ok {| graph_nodes := [0%nat]; graph_edges := [] |}
  ∧ (run Example.one_call st2).2 = Ok VNone
  ∧ times (qualified Example.callee)
      ((calls Example.one_call).1 ++ (calls Example.one_call).1) = 2
  ∧ callcounter <$> my_info st3 !! qualified Example.callee = Some 1.
Proof. vm_compute. done. Qed.

(** C6, as the code has it.  At the end of every history that has only
    decorated calls, in one thread from a new registry, [my_list_all_functions]
    holds the names that were called, each once, in the order of their
    first calls.
    The state in which a decorated function starts is the end of a history
    too, the one in which that function raises at once.  A function that
    calls itself [K] times before it returns is in the list once. *)
Theorem all_functions_first_seen :
  (∀ bs : list body,
     let st := run_all bs __init__ in
     names_all st = first_seen (calls_all bs)
     ∧ NoDup (names_all st)
     ∧ ∀ n, n ∈ names_all st ↔ n ∈ calls_all bs)
  ∧ (∀ (bs : list body) (f : func),
       ∃ bs', (before_call f (run_all bs __init__)).1 = run_all bs' __init__
              ∧ calls_all bs' = calls_all bs ++ [qualified f])
  ∧ (∀ (f : func) (K : nat),
       let b := Call f (recursion f K) Return in
       let st := (run b __init__).1 in
       (calls b).1 = replicate (S K) (qualified f)
       ∧ names_all st = [qualified f]
       ∧ length (my_list_all_functions st) = 1%nat).
Proof.
  assert (Hgen : ∀ bs : list body,
     names_all (run_all bs __init__) = first_seen (calls_all bs)
     ∧ NoDup (names_all (run_all bs __init__))
     ∧ ∀ n, n ∈ names_all (run_all bs __init__) ↔ n ∈ calls_all bs).
  { intros bs. destruct (run_all_init bs) as (Hwf & Hnames & _).
    split_and!; [done|apply Hwf|].
    intros n. by rewrite Hnames, elem_of_first_seen. }
  split_and!; [exact Hgen| |].
  - intros bs f. exists (bs ++ [Call f (Raise ValueError) Return]). split.
    + rewrite run_all_app. cbn [run_all foldl].
      apply before_call_run, reachable_wf. by exists bs.
    + rewrite calls_all_app, calls_all_one. done.
  - intros f K b st.
    assert (Hcalls : (calls b).1 = replicate (S K) (qualified f)).
    { unfold b. cbn [calls]. rewrite calls_recursion. cbn. by rewrite app_nil_r. }
    destruct (Hgen [b]) as (Hnames & _ & _).
    change (run_all [b] __init__) with st in Hnames.
    rewrite calls_all_one, Hcalls, first_seen_replicate in Hnames.
    split_and!; [done|done|].
    apply (f_equal length) in Hnames. unfold names_all, names in Hnames.
    by rewrite length_fmap in Hnames.
Qed.

(** C6 fails as stated: a function that is called, drawn by
    [make_graphviz_chart] and called again is twice in
    [my_list_all_functions], as two records of its name. *)
Lemma rendered_function_listed_twice :
  let st1 := (run Example.one_call __init__).1 in
  let st2 := (make_graphviz_chart st1).1 in
  let st3 := (run Example.one_call st2).1 in
  names_all st1 = [qualified Example.callee]
  ∧ names_all st2 = [qualified Example.callee]
  ∧ (run Example.one_call st2).2 = Ok VNone
  ∧ my_list_all_functions st3 = [0%nat; 1%nat]
  ∧ names_all st3 = [qualified Example.callee; qualified Example.callee].
Proof. vm_compute. done. Qed.

(** C9.  [sum_recursive(1, 1)] in a new process: [sum_recursive] and
    [print_value] are called twice each, the registry has the two names,
    and both counters are 2. *)
Theorem test_store_calls_registry :
  let st := (run TestStoreCalls.test_store_calls __init__).1 in
  calls TestStoreCalls.test_store_calls =
    (["test_store_funcs.sum_recursive"; "test_store_funcs.print_value";
      "test_store_funcs.sum_recursive"; "test_store_funcs.print_value"],
     Ok (VInt 2))
  ∧ (run TestStoreCalls.test_store_calls __init__).2 = Ok (VInt 2)
  ∧ length (my_list_all_functions st) = 2%nat
  ∧ names_all st = ["test_store_funcs.sum_recursive"; "test_store_funcs.print_value"]
  ∧ callcounter <$> my_info st !! "test_store_funcs.sum_recursive" = Some 2
  ∧ callcounter <$> my_info st !! "test_store_funcs.print_value" = Some 2.
Proof. vm_compute. done. Qed.

(** C8, as the code has it.  Two [MethodCall] records are equal exactly
    when their names are equal and their nodes are equal: [node] takes part
    in the comparison. *)
Theorem MethodCall_eq_fields (a b : MethodCall) :
  MethodCall_eq a b = true ↔ name a = name b ∧ node a = node b.
Proof.
  unfold MethodCall_eq. rewrite andb_true_iff, !bool_decide_eq_true. done.
Qed.

(** C8 fails as stated: a record and the same record with a node have one
    name and are not equal. *)
Lemma MethodCall_eq_not_by_name :
  name {| name := "m.f"; node := None |} = name {| name := "m.f"; node := Some 0%nat |}
  ∧ MethodCall_eq {| name := "m.f"; node := None |}
                  {| name := "m.f"; node := Some 0%nat |} = false.
Proof. done. Qed.

(** ** [create], in any state *)

Lemma create_spec (entry : loc) (t : float) (st : State) :
  create entry t SourceFunctions st =
    (put_info (<[name (deref (heap st) entry) :=
                   {| timer := t; callcounter := 1; start := clock st;
                      source_functions := sources_at st (name (deref (heap st) entry)) |}]>
                 (my_info st)) st,
     Ok tt).
Proof.
  unfold create, set_source_functions, sources_at, bind, name_of, info_of, set_info,
    perf_counter, gets, modify, ret. cbn.
  destruct (last (my_list_source_functions st)) as [top|]; cbn; [|done].
  case_bool_decide; cbn; [|done].
  rewrite lookup_insert_eq. cbn. unfold put_info. cbn. by rewrite insert_insert_eq.
Qed.

(** C7, as the code has it.  [create] gives a name the top of the active
    list as its one source when that top has another name, and no source
    otherwise; in a process that has only run decorated functions the
    wrapper does so at the first call of a name, where the top always has
    another name, and no later call, from whatever caller, changes the
    sources of a name. *)
Theorem source_functions_set_once :
  (∀ (st : State) (entry : loc) (t : float),
     let key := name (deref (heap st) entry) in
     let st' := (create entry t SourceFunctions st).1 in
     (create entry t SourceFunctions st).2 = Ok tt
     ∧ source_functions <$> my_info st' !! key =
         Some match last (my_list_source_functions st) with
              | Some top =>
                  if bool_decide (name (deref (heap st) top) ≠ key) then [top] else []
              | None => []
              end)
  ∧ (∀ (st : State) (f : func),
       reachable st → qualified f ∉ names_all st →
       source_functions <$> my_info (before_call f st).1 !! qualified f =
         Some match last (my_list_source_functions st) with
              | Some top => [top]
              | None => []
              end)
  ∧ (∀ (st : State) (n : string) (i : Info) (b : body),
       reachable st → my_info st !! n = Some i →
       ∃ i', my_info (run b st).1 !! n = Some i'
             ∧ source_functions i' = source_functions i).
Proof.
  split_and!.
  - intros st entry t key st'. unfold st'. rewrite create_spec. cbn.
    split; [done|]. by rewrite lookup_insert_eq.
  - intros st f Hr%reachable_wf Hnin.
    assert (Hi : my_info st !! qualified f = None).
    { destruct (my_info st !! qualified f) eqn:E; [|done].
      exfalso. apply Hnin, (wf_info _ Hr). eauto. }
    rewrite (before_call_new _ _ Hr Hi). cbn. by rewrite lookup_insert_eq.
  - intros st n i b Hr%reachable_wf Hi.
    apply (fl_sources _ _ _ (proj1 (run_behaves b st Hr)) _ _ Hi).
Qed.

(** ** A callee with two callers *)

Lemma source_functions_set_once_witness :
  let st := (run Example.first_history __init__).1 in
  reachable st
  ∧ my_info st !! "m.callee" =
      Some {| timer := 0%float; callcounter := 1; start := 0%float;
              source_functions := [0%nat] |}
  ∧ ∃ i', my_info (run Example.second_history st).1 !! "m.callee" = Some i'
          ∧ source_functions i' = [0%nat].
Proof.
  assert (Hr : reachable (run Example.first_history __init__).1)
    by (by exists [Example.first_history]).
  assert (Hi : my_info (run Example.first_history __init__).1 !! "m.callee" =
      Some {| timer := 0%float; callcounter := 1; start := 0%float;
              source_functions := [0%nat] |}) by (vm_compute; reflexivity).
  split_and!; [exact Hr|exact Hi|].
  exact (proj2 (proj2 source_functions_set_once) _ _ _ Example.second_history Hr Hi).
Defined.

(** C7 fails as stated: [callee] is first called by [caller], which
    becomes its source; after [make_graphviz_chart] has drawn the two, a
    call from [other_caller] replaces that source by [other_caller]. *)
Lemma rendered_callee_gets_new_source :
  let st1 := (run Example.first_history __init__).1 in
  let st2 := (make_graphviz_chart st1).1 in
  let st3 := (run Example.second_history st2).1 in
  source_functions <$> my_info st1 !! qualified Example.callee = Some [0%nat]
  ∧ source_functions <$> my_info st2 !! qualified Example.callee = Some [0%nat]
  ∧ (run Example.second_history st2).2 = Ok VNone
  ∧ source_functions <$> my_info st3 !! qualified Example.callee = Some [2%nat]
  ∧ name (deref (heap st3) 0%nat) = qualified Example.caller
  ∧ name (deref (heap st3) 2%nat) = qualified Example.other_caller.
Proof. vm_compute. done. Qed.

(** ** After the call *)

Lemma after_call_inactive methodcall start_time st i :
  wf st →
  my_info st !! name (deref (heap st) methodcall) = Some i →
  name (deref (heap st) methodcall) ∉ names_active (after_call methodcall start_time st).1.
Proof.
  intros Hwf Hi. rewrite (after_call_ok _ _ _ _ Hwf Hi). unfold names_active. cbn.
  rewrite names_filter. intros [Hne _]%list_elem_of_filter. by apply Hne.
Qed.

(** C3, as the code has it.  In a process that has only run decorated
    functions: when the decorated function returns, the wrapper ends with
    the function's name off the active list; when it raises, the wrapper
    ends there, in the state that the function left. *)
Theorem active_after_call (st : State) (f : func) (callee : body) :
  reachable st →
  let st1 := (before_call f st).1 in
  let st2 := (run callee st1).1 in
  match (run callee st1).2 with
  | Ok v => ∃ st', register_method f (run callee) st = (st', Ok v)
                   ∧ qualified f ∉ names_active st'
  | Exn e => register_method f (run callee) st = (st2, Exn e)
  end.
Proof.
  intros Hwf%reachable_wf.
  destruct (wrapper_run f (run callee) _ _ st (run_behaves callee) Hwf)
    as (st1 & st2 & Hb & _ & Hc & Hf2 & Hd & [i2 Hi2] & Hw & _).
  rewrite Hb. cbn [fst]. rewrite Hc in *. cbn [fst snd].
  destruct (calls callee).2 as [v|e]; [|done].
  eexists. split; [done|].
  replace (qualified f) with (name (deref (heap st2) (length (heap st))))
    by (by rewrite Hd).
  apply (after_call_inactive _ _ _ i2 (fl_wf _ _ _ Hf2)). by rewrite Hd.
Qed.

Lemma active_after_call_witness :
  reachable __init__
  ∧ ∃ st', register_method Example.callee (run Example.slow) __init__ = (st', Ok (VInt 5))
           ∧ qualified Example.callee ∉ names_active st'.
Proof.
  assert (Hr : reachable __init__) by (by exists []).
  split; [exact Hr|].
  exact (active_after_call __init__ Example.callee Example.slow Hr).
Defined.

(** C3 fails as stated: a decorated function that raises at its first
    call stays on the active list. *)
Lemma raising_call_stays_active :
  let r := register_method Example.callee (run Example.failing) __init__ in
  r.2 = Exn (UserError "boom")
  ∧ names_active r.1 = [qualified Example.callee]
  ∧ qualified Example.callee ∈ names_active r.1.
Proof. vm_compute. split_and!; [done|done|apply list_elem_of_here]. Qed.

(** C4, as the code has it.  When the decorated function returns, the
    milliseconds between the two readings of the clock are added to the
    timer of its name; when it raises, the exception is the wrapper's
    result and the registry stays as the function left it. *)
Theorem timer_after_call (st : State) (f : func) (callee : body) :
  reachable st →
  let st1 := (before_call f st).1 in
  let st2 := (run callee st1).1 in
  ∃ i2, my_info st2 !! qualified f = Some i2
  ∧ match (run callee st1).2 with
    | Ok v =>
        ∃ st', register_method f (run callee) st = (st', Ok v)
               ∧ my_info st' !! qualified f =
                   Some {| timer := PrimFloat.add (timer i2)
                                      (milliseconds (clock st) (clock st2));
                           callcounter := callcounter i2; start := start i2;
                           source_functions := source_functions i2 |}
    | Exn e => register_method f (run callee) st = (st2, Exn e)
    end.
Proof.
  intros Hwf%reachable_wf.
  destruct (wrapper_run f (run callee) _ _ st (run_behaves callee) Hwf)
    as (st1 & st2 & Hb & _ & Hc & Hf2 & Hd & [i2 Hi2] & Hw & _).
  rewrite Hb. cbn [fst]. rewrite Hc in *. cbn [fst snd].
  exists i2. split; [done|].
  destruct (calls callee).2 as [v|e]; [|done].
  eexists. split; [done|].
  rewrite (after_call_ok _ _ _ i2 (fl_wf _ _ _ Hf2)) by (by rewrite Hd).
  cbn. rewrite Hd. cbn. by rewrite lookup_insert_eq.
Qed.

Lemma timer_after_call_witness :
  reachable __init__
  ∧ ∃ i2, my_info (run Example.slow (before_call Example.callee __init__).1).1
            !! qualified Example.callee = Some i2
    ∧ ∃ st', register_method Example.callee (run Example.slow) __init__ = (st', Ok (VInt 5))
             ∧ my_info st' !! qualified Example.callee =
                 Some {| timer := PrimFloat.add (timer i2)
                                    (milliseconds (clock __init__) 1%float);
                         callcounter := callcounter i2; start := start i2;
                         source_functions := source_functions i2 |}.
Proof.
  assert (Hr : reachable __init__) by (by exists []).
  split; [exact Hr|].
  exact (timer_after_call __init__ Example.callee Example.slow Hr).
Defined.

(** C4 fails as stated: a decorated function that works for a second and
    then raises leaves its timer at zero. *)
Lemma raising_call_not_timed :
  let r := register_method Example.callee (run Example.slow_failing) __init__ in
  r.2 = Exn (UserError "boom")
  ∧ milliseconds (clock __init__) (clock r.1) = 1000%float
  ∧ timer <$> my_info r.1 !! qualified Example.callee = Some 0%float
  ∧ PrimFloat.ltb 0%float 1000%float = true.
Proof. vm_compute. done. Qed.

(** ** Before the call *)

(** C2, as the code has it.  In a process that has only run decorated
    functions, the decorated function starts in the state that the first
    half of the wrapper leaves.  At the first call of a name the new record
    has been appended to the active list, so the name is active when the
    function starts; at a later call the active list is as it was. *)
Theorem active_at_start (st : State) (f : func) :
  reachable st →
  let methodcall := length (heap st) in
  let st1 := (before_call f st).1 in
  (∀ (A : Type) (call : M A),
     register_method f call st =
     (result <- call ;; after_call methodcall (clock st) ;; ret result) st1)
  ∧ deref (heap st1) methodcall = record_of f
  ∧ (qualified f ∉ names_all st →
       my_list_source_functions st1 = my_list_source_functions st ++ [methodcall]
       ∧ qualified f ∈ names_active st1)
  ∧ (qualified f ∈ names_all st →
       my_list_source_functions st1 = my_list_source_functions st).
Proof.
  intros Hwf%reachable_wf methodcall st1.
  destruct (before_call_spec f st Hwf) as (st1' & Hb & _ & Hh1 & _).
  assert (st1 = st1') as -> by (unfold st1; by rewrite Hb).
  split_and!.
  - intros A call. unfold register_method. rewrite wrapper_phases.
    unfold bind at 1. by rewrite Hb.
  - rewrite Hh1. apply deref_app_new.
  - intros Hnin.
    assert (Hi : my_info st !! qualified f = None).
    { destruct (my_info st !! qualified f) eqn:E; [|done].
      exfalso. apply Hnin, (wf_info _ Hwf). eauto. }
    rewrite (before_call_new _ _ Hwf Hi) in Hb. injection Hb as <-.
    split; [done|]. unfold names_active. cbn.
    rewrite names_app, names_new. apply elem_of_app. right. apply list_elem_of_here.
  - intros [i Hi]%(wf_info _ Hwf).
    rewrite (before_call_seen _ _ _ Hwf Hi) in Hb. by injection Hb as <-.
Qed.

Lemma active_at_start_witness :
  reachable __init__
  ∧ my_list_source_functions (before_call Example.callee __init__).1 = [0%nat]
  ∧ qualified Example.callee ∈ names_active (before_call Example.callee __init__).1.
Proof.
  assert (Hr : reachable __init__) by (by exists []).
  split; [exact Hr|].
  apply (proj1 (proj2 (proj2 (active_at_start __init__ Example.callee Hr)))).
  vm_compute. by intros ?%elem_of_nil.
Defined.

(** C2 fails as stated: at its second call, after a first call that has
    returned, the active list has no entry of the function's name, the
    wrapper appends none, and the function starts with its name off the
    active list. *)
Lemma second_call_not_active :
  let st := (run Example.one_call __init__).1 in
  reachable st
  ∧ qualified Example.callee ∈ names_all st
  ∧ names_active st = []
  ∧ (before_call Example.callee st).2 = Ok (1%nat, 0%float)
  ∧ names_active (before_call Example.callee st).1 = []
  ∧ qualified Example.callee ∉ names_active (before_call Example.callee st).1.
Proof.
  cbn zeta. split; [by exists [Example.one_call]|].
  vm_compute.
  split_and!; [apply list_elem_of_here|done|done|done|by intros ?%elem_of_nil].
Qed.

(** ** What the renderer changes *)

Lemma renders_refl st : renders st st.
Proof. by split. Qed.

Lemma renders_trans st1 st2 st3 : renders st1 st2 → renders st2 st3 → renders st1 st3.
Proof.
  intros H12 H23. split.
  - by rewrite (rd_all _ _ H23), (rd_all _ _ H12).
  - by rewrite (rd_active _ _ H23), (rd_active _ _ H12).
  - by rewrite (rd_info _ _ H23), (rd_info _ _ H12).
  - by rewrite (rd_clock _ _ H23), (rd_clock _ _ H12).
  - by rewrite (rd_length _ _ H23), (rd_length _ _ H12).
  - intros e. by rewrite (rd_name _ _ H23), (rd_name _ _ H12).
  - intros e He. by apply (rd_node _ _ H23), (rd_node _ _ H12).
Qed.

Lemma deref_insert h (e x : loc) mc :
  deref (<[x := mc]> h) e =
  if decide (x = e ∧ (x < length h)%nat) then mc else deref h e.
Proof.
  unfold deref. destruct (decide (x = e ∧ (x < length h)%nat)) as [[-> Hlt]|Hn].
  - by rewrite list_lookup_insert_eq.
  - destruct (decide (x = e)) as [->|Hne].
    + rewrite list_insert_ge; [done|]. lia.
    + by rewrite list_lookup_insert_ne.
Qed.

Lemma read_timers_state l st :
  (fold_M (λ (_ : unit) item, key <- name_of item ;; _ <- info_of key ;; ret tt) tt l st).1 = st.
Proof.
  induction l as [|e l IH]; [done|].
  cbn [fold_M]. unfold bind at 1. unfold bind at 1. unfold bind at 1.
  unfold name_of, gets, info_of, ret. cbn.
  destruct (my_info st !! _); [|done]. apply IH.
Qed.

Lemma add_edges_state methodcall l g st :
  (fold_M (add_edges methodcall) g l st).1 = st.
Proof.
  revert g. induction l as [|e l IH]; intros g; [done|].
  cbn [fold_M]. unfold bind at 1. unfold add_edges at 1.
  unfold bind, node_of, gets, ret, raise. cbn.
  destruct (node (deref (heap st) e)); [|done].
  destruct (node (deref (heap st) methodcall)); [|done]. apply IH.
Qed.

Lemma add_function_state g methodcall st :
  (add_function g methodcall st).1 =
  match my_info st !! name (deref (heap st) methodcall) with
  | Some _ => with_node methodcall st
  | None => st
  end.
Proof.
  unfold add_function. unfold bind at 1. unfold name_of at 1, gets. cbn.
  unfold bind at 1. unfold info_of at 1.
  destruct (my_info st !! name (deref (heap st) methodcall)) as [i|] eqn:Hi; [|done].
  unfold bind at 1. unfold new_Node at 1. unfold bind at 1. unfold set_node at 1, modify.
  cbn. unfold bind at 1. unfold info_of at 1. cbn. rewrite Hi.
  by rewrite add_edges_state.
Qed.

Lemma with_node_renders methodcall st : renders st (with_node methodcall st).
Proof.
  split; unfold with_node; cbn; try done.
  - apply length_insert.
  - intros e. rewrite deref_insert. by destruct (decide _) as [[<- _]|_].
  - intros e He. rewrite deref_insert. destruct (decide _); [by eexists|done].
Qed.




(** ** A first half that does not find the name *)

Lemma before_call_unseen f st :
  py_in (heap st ++ [record_of f]) (length (heap st)) (my_list_all_functions st) = false →
  before_call f st =
    ({| heap := heap st ++ [record_of f];
        my_list_all_functions := my_list_all_functions st ++ [length (heap st)];
        my_list_source_functions := my_list_source_functions st ++ [length (heap st)];
        my_info := <[qualified f :=
                       {| timer := 0%float; callcounter := 1; start := clock st;
                          source_functions :=
                            sources_at (put_heap (heap st ++ [record_of f]) st)
                                       (qualified f) |}]> (my_info st);
        clock := clock st; handles := handles st |},
     Ok (length (heap st), clock st)).
Proof.
  intros Hin.
  unfold before_call. unfold bind at 1. unfold new_MethodCall at 1.
  unfold bind at 1. unfold exist_entry at 1, gets at 1. cbn.
  change {| name := qualified f; node := None |} with (record_of f).
  rewrite Hin.
  unfold bind at 1. unfold bind at 1. rewrite create_spec. cbn.
  rewrite deref_app_new. done.
Qed.




(** ** Two threads in the wrapper *)

Section ThreadProofs.

Variables (f : func) (seconds : float) (v : value).

(** A thread that runs alone goes through the wrapper: nine steps from the
    start are one call of the decorated function. *)
Ltac destruct_head c :=
  lazymatch c with
  | match ?d with _ => _ end => destruct_head d
  | (match ?d with _ => _ end) _ => destruct_head d
  | _ => destruct c
  end.

Lemma thread_alone (st : State) :
  alone f seconds v 9 AtStart st =
  let (st', r) := register_method f (sleep seconds ;; ret v) st in (st', Done r).
Proof.
  unfold register_method, function_wrapper_for_node_storage.
  cbv [alone advance thread_step bind ret new_MethodCall exist_entry gets
         perf_counter sleep modify].
  repeat (match goal with
          | |- match ?c with _ => _ end = _ => destruct_head c
          end; cbv beta iota zeta);
    reflexivity.
Qed.

Lemma tinv_sym base st p q : tinv f base st p q → tinv f base st q p.
Proof.
  intros [? ? ? ? Hn Hi ? ?]. split; try done.
  - by rewrite orb_comm.
  - by rewrite (Z.add_comm (counted q)).
Qed.

Lemma heap_ok_new st mc : heap_ok st → heap_ok (put_heap (heap st ++ [record_of mc]) st).
Proof.
  intros [Hn Ha Hs]. split; cbn.
  - apply Forall_app. split; [done|]. by apply Forall_singleton.
  - by apply valid_app.
  - by apply valid_app.
Qed.

Lemma mine_new st g p : mine f st p → mine f (put_heap (heap st ++ [record_of g]) st) p.
Proof.
  unfold mine. destruct (record_at p) as [mc|]; [|done]. cbn.
  intros [Hlt Hname]. rewrite deref_app_old by done. split; [|done].
  rewrite length_app. lia.
Qed.

Lemma seen_listed base st mc q :
  heap_ok st → qualified f ∉ base →
  name (deref (heap st) mc) = qualified f →
  names_all st = base ++ (if listed q then [qualified f] else []) →
  py_in (heap st) mc (my_list_all_functions st) = listed q.
Proof.
  intros Hok Hbase Hname Hnames.
  rewrite (py_in_names _ _ _ (ho_nodes _ Hok)), Hname.
  fold (names_all st). rewrite Hnames.
  destruct (listed q).
  - apply bool_decide_eq_true_2, elem_of_app. right. apply list_elem_of_here.
  - apply bool_decide_eq_false_2. by rewrite app_nil_r.
Qed.

Lemma py_remove_valid (P : loc → Prop) h x l l' :
  py_remove h x l = Some l' → Forall P l → Forall P l'.
Proof.
  revert l'. induction l as [|e l IH]; intros l' Hrm Hl; [done|].
  apply Forall_cons in Hl as [He Hl]. cbn in Hrm.
  destruct (py_same h x e); [by injection Hrm as <-|].
  destruct (py_remove h x l) as [l2|]; [|done]. injection Hrm as <-.
  apply Forall_cons. split; [done|]. by apply IH.
Qed.

Lemma edit_callcounter_found st mc i :
  my_info st !! name (deref (heap st) mc) = Some i →
  edit_callcounter mc st =
    (put_info (<[name (deref (heap st) mc) :=
                   {| timer := timer i; callcounter := callcounter i + 1;
                      start := start i; source_functions := source_functions i |}]>
                 (my_info st)) st, Ok tt).
Proof.
  intros Hi. unfold edit_callcounter, bind, name_of, info_of, set_info, gets, modify.
  cbn. by rewrite Hi.
Qed.

Lemma edit_timer_found st mc t i :
  my_info st !! name (deref (heap st) mc) = Some i →
  edit_timer mc t st =
    (put_info (<[name (deref (heap st) mc) :=
                   {| timer := PrimFloat.add (timer i) t; callcounter := callcounter i;
                      start := start i; source_functions := source_functions i |}]>
                 (my_info st)) st, Ok tt).
Proof.
  intros Hi. unfold edit_timer, bind, name_of, info_of, set_info, gets, modify.
  cbn. by rewrite Hi.
Qed.

Lemma heap_ok_same st st' :
  heap st' = heap st →
  my_list_all_functions st' = my_list_all_functions st →
  my_list_source_functions st' = my_list_source_functions st →
  heap_ok st → heap_ok st'.
Proof. intros Hh Ha Hs [? ? ?]. split; by rewrite ?Hh, ?Ha, ?Hs. Qed.

Lemma advance_tinv base st p q st' p' :
  tinv f base st p q →
  in_sequence p && inside_sequence q = false →
  advance f seconds v p st = (st', p') →
  tinv f base st' p' q.
Proof.
  intros [Hok Hbase Hp Hq Hnames Hinfo Hwp Hwq] Hex Hadv.
  destruct p as [|mc|mc|mc|mc|mc|mc|mc ms r|mc r|mc r|r].
  - (* the new record *)
    injection Hadv as <- <-. split; try done.
    + by apply (heap_ok_new _ f).
    + unfold mine. cbn. rewrite length_app, deref_app_new. cbn. split; [lia|done].
    + by apply (mine_new _ f).
    + unfold names_all. cbn. rewrite names_app_old by apply Hok. done.
  - (* the membership test *)
    destruct Hp as [Hlt Hname]. cbn in Hex, Hnames.
    unfold advance, thread_step, bind, exist_entry, gets, ret in Hadv. cbn in Hadv.
    rewrite (seen_listed base st mc q Hok Hbase Hname Hnames) in Hadv.
    injection Hadv as <- <-.
    destruct (listed q) eqn:Hl.
    + split; try done; destruct q; try done.
    + split; try done.
      * cbn. by rewrite Hl.
      * destruct q; try done.
      * destruct q; try done.
  - (* the count *)
    destruct Hp as [Hlt Hname]. cbn in Hwp.
    assert (Hcq : counted q = 1) by (destruct q; done).
    assert (Hlq : listed q = true) by (destruct q; done).
    rewrite Hcq in Hinfo. cbn in Hinfo.
    destruct (my_info st !! qualified f) as [i|] eqn:Hi; [|done].
    unfold advance, thread_step, bind in Hadv.
    rewrite (edit_callcounter_found _ _ i) in Hadv by (by rewrite Hname).
    injection Hadv as <- <-. rewrite Hname.
    split; try done; try (by apply (heap_ok_same st)); try (by destruct q).
    cbn. rewrite lookup_insert_eq. cbn. rewrite Hcq. lia.
  - (* the new statistics *)
    destruct Hp as [Hlt Hname]. cbn in Hwp.
    assert (Hcq : counted q = 0) by (destruct q; done).
    unfold advance, thread_step, bind in Hadv. rewrite create_spec in Hadv.
    injection Hadv as <- <-. rewrite Hname.
    split; try done; try (by apply (heap_ok_same st)); try (by destruct q).
    cbn. rewrite lookup_insert_eq. cbn. rewrite Hcq. lia.
  - (* the name goes to the list of all functions *)
    destruct Hp as [Hlt Hname]. cbn in Hwp.
    assert (Hlq : listed q = false) by (destruct q; done).
    injection Hadv as <- <-.
    split; try done; try (by destruct q).
    + destruct Hok as [Hn Ha Hs]. split; cbn; try done.
      apply Forall_app. split; [done|]. by apply Forall_singleton.
    + unfold names_all in *. cbn in *. rewrite names_app, Hnames, Hlq. cbn.
      rewrite app_nil_r. unfold names. cbn. by rewrite Hname.
  - (* the name goes to the active list *)
    destruct Hp as [Hlt Hname]. cbn in Hwp.
    injection Hadv as <- <-.
    split; try done; try (by destruct q).
    destruct Hok as [Hn Ha Hs]. split; cbn; try done.
    apply Forall_app. split; [done|]. by apply Forall_singleton.
  - (* the decorated function *)
    injection Hadv as <- <-.
    split; try done; try (by apply (heap_ok_same st)); try (by destruct q).
  - (* the timer *)
    destruct Hp as [Hlt Hname].
    assert (Hpos : 0 < counted (AtTimer mc ms r) + counted q) by (destruct q; done).
    destruct (my_info st !! qualified f) as [i|] eqn:Hi; [|lia].
    unfold advance, thread_step, bind in Hadv.
    rewrite (edit_timer_found _ _ _ i) in Hadv by (by rewrite Hname).
    injection Hadv as <- <-. rewrite Hname.
    split; try done; try (by apply (heap_ok_same st)); try (by destruct q).
    cbn. by rewrite lookup_insert_eq.
  - (* the test of the active list *)
    unfold advance, thread_step, bind, exist_entry, gets, ret in Hadv. cbn in Hadv.
    injection Hadv as <- <-.
    destruct (py_in _ _ _); (split; try done; by destruct q).
  - (* the removal from the active list *)
    unfold advance, thread_step, bind, delete_entry, ret in Hadv.
    destruct (py_remove _ _ _) as [l|] eqn:Hrm; injection Hadv as <- <-.
    + split; try done; try (by destruct q).
      destruct Hok as [Hn Ha Hs]. split; cbn; try done.
      by apply (py_remove_valid _ _ _ _ _ Hrm).
    + split; try done; by destruct q.
  - (* a thread that has ended *)
    injection Hadv as <- <-. by split.
Qed.

Lemma step_tinv base t c :
  tinv f base (shared c) (pc1 c) (pc2 c) →
  in_sequence (pc_of t c) && inside_sequence (pc_of (other t) c) = false →
  tinv f base (shared (step f seconds v t c)) (pc1 (step f seconds v t c))
       (pc2 (step f seconds v t c)).
Proof.
  intros Hinv Hex. destruct t; unfold step; cbn in Hex.
  - destruct (advance f seconds v (pc1 c) (shared c)) as [st' p'] eqn:Hadv. cbn.
    by eapply advance_tinv.
  - destruct (advance f seconds v (pc2 c) (shared c)) as [st' p'] eqn:Hadv. cbn.
    apply tinv_sym. eapply advance_tinv; [by apply tinv_sym|done|done].
Qed.

Lemma interleave_tinv base sched c :
  tinv f base (shared c) (pc1 c) (pc2 c) →
  exclusive f seconds v sched c = true →
  let c' := interleave f seconds v sched c in
  tinv f base (shared c') (pc1 c') (pc2 c').
Proof.
  revert c. induction sched as [|t sched IH]; intros c Hinv Hex; [done|].
  cbn [exclusive] in Hex. apply andb_true_iff in Hex as [Hnow Hlater].
  apply negb_true_iff in Hnow.
  cbn. apply IH; [|done]. by apply step_tinv.
Qed.

Lemma tinv_start st :
  wf st → qualified f ∉ names_all st → tinv f (names_all st) st AtStart AtStart.
Proof.
  intros Hwf Hnin. split; try done.
  - split; apply Hwf.
  - cbn. by rewrite app_nil_r.
  - destruct (my_info st !! qualified f) eqn:Hi; [|done].
    exfalso. apply Hnin, (wf_info _ Hwf). eauto.
Qed.

(** C1, as the code has it.  The lock of [SingletonMetaForCallGraph]
    guards the construction of the instance and nothing else; the wrapper's
    check-then-act sequence runs without it.  Under the schedules that a
    lock around that sequence would leave, two threads that call a function
    never seen before end with one entry for it and a count of 2. *)
Theorem exclusive_threads_register_once (st : State) (sched : list tid) :
  reachable st →
  qualified f ∉ names_all st →
  exclusive f seconds v sched (both_start st) = true →
  let c := interleave f seconds v sched (both_start st) in
  finished c →
  names_all (shared c) = names_all st ++ [qualified f]
  ∧ callcounter <$> my_info (shared c) !! qualified f = Some 2.
Proof.
  intros Hwf%reachable_wf Hnin Hex c [[r1 H1] [r2 H2]].
  pose proof (interleave_tinv _ sched (both_start st) (tinv_start st Hwf Hnin) Hex)
    as Hinv.
  fold c in Hinv. cbn zeta in Hinv. rewrite H1, H2 in Hinv.
  destruct Hinv as [_ _ _ _ Hnames Hinfo _ _]. cbn in Hnames, Hinfo.
  split; [done|].
  destruct (my_info (shared c) !! qualified f) as [i|]; [|done].
  cbn. f_equal. apply Hinfo.
Qed.

End ThreadProofs.

Lemma exclusive_threads_register_once_witness :
  let sched := [Thread1; Thread2; Thread1; Thread1; Thread1; Thread1;
                Thread2; Thread2; Thread2; Thread1; Thread2; Thread1;
                Thread1; Thread2; Thread1; Thread2] in
  let c := interleave Example.callee 0%float VNone sched (both_start __init__) in
  reachable __init__
  ∧ (qualified Example.callee ∉ names_all __init__)
  ∧ exclusive Example.callee 0%float VNone sched (both_start __init__) = true
  ∧ finished c
  ∧ names_all (shared c) = names_all __init__ ++ [qualified Example.callee]
  ∧ callcounter <$> my_info (shared c) !! qualified Example.callee = Some 2.
Proof.
  cbn zeta.
  assert (Hr : reachable __init__) by (by exists []).
  assert (Hn : qualified Example.callee ∉ names_all __init__)
    by (vm_compute; by intros ?%elem_of_nil).
  assert (Hx : exclusive Example.callee 0%float VNone
                 [Thread1; Thread2; Thread1; Thread1; Thread1; Thread1;
                  Thread2; Thread2; Thread2; Thread1; Thread2; Thread1;
                  Thread1; Thread2; Thread1; Thread2] (both_start __init__) = true)
    by (vm_compute; reflexivity).
  split; [exact Hr|]. split; [exact Hn|]. split; [exact Hx|].
  assert (Hf : finished (interleave Example.callee 0%float VNone
                 [Thread1; Thread2; Thread1; Thread1; Thread1; Thread1;
                  Thread2; Thread2; Thread2; Thread1; Thread2; Thread1;
                  Thread1; Thread2; Thread1; Thread2] (both_start __init__))).
  { split; eexists; vm_compute; reflexivity. }
  split; [exact Hf|].
  exact (exclusive_threads_register_once Example.callee 0%float VNone __init__ _
           Hr Hn Hx Hf).
Defined.

(** C1 fails as stated: when both threads make the membership test before
    either has registered, both register; the list of all functions has
    the name twice and the count is 1. *)
Lemma overlapping_threads_register_twice :
  let sched := [Thread1; Thread1; Thread2; Thread2;
                Thread1; Thread1; Thread1; Thread2; Thread2; Thread2;
                Thread1; Thread1; Thread1; Thread1;
                Thread2; Thread2; Thread2; Thread2] in
  let c := interleave Example.callee 0%float VNone sched (both_start __init__) in
  pc1 c = Done (Ok VNone)
  ∧ pc2 c = Done (Ok VNone)
  ∧ names_all (shared c) = [qualified Example.callee; qualified Example.callee]
  ∧ callcounter <$> my_info (shared c) !! qualified Example.callee = Some 1
  ∧ exclusive Example.callee 0%float VNone sched (both_start __init__) = false.
Proof. vm_compute. done. Qed.

(** * More of the registry *)

(** ** Membership, removal and appending, in any state *)

Lemma py_same_refl h x : py_same h x x = true.
Proof. unfold py_same. by rewrite bool_decide_eq_true_2. Qed.

Lemma py_remove_split h x l :
  match py_remove h x l with
  | Some l' => ∃ l1 e l2, l = l1 ++ e :: l2 ∧ l' = l1 ++ l2
                          ∧ py_same h x e = true
                          ∧ Forall (λ y, py_same h x y = false) l1
  | None => py_in h x l = false
  end.
Proof.
  unfold py_in. induction l as [|e l IH]; [done|]. cbn.
  destruct (py_same h x e) eqn:He.
  - exists [], e, l. by split_and!.
  - destruct (py_remove h x l) as [l'|]; cbn; [|done].
    destruct IH as (l1 & e' & l2 & -> & -> & Hsame & Hbefore).
    exists (e :: l1), e', l2. split_and!; try done. by apply Forall_cons.
Qed.

Lemma py_in_remove h x l : py_in h x l = bool_decide (is_Some (py_remove h x l)).
Proof.
  pose proof (py_remove_split h x l) as H.
  destruct (py_remove h x l) as [l'|].
  - destruct H as (l1 & e & l2 & -> & _ & Hsame & _).
    rewrite bool_decide_eq_true_2 by eauto.
    unfold py_in. rewrite existsb_app. cbn. rewrite Hsame. by rewrite orb_true_r.
  - rewrite H. symmetry. apply bool_decide_eq_false_2. by intros [? ?].
Qed.

Lemma py_remove_appended h x l :
  py_remove h x (l ++ [x]) =
  match py_remove h x l with
  | Some l' => Some (l' ++ [x])
  | None => Some l
  end.
Proof.
  induction l as [|e l IH]; cbn.
  - by rewrite py_same_refl.
  - destruct (py_same h x e); [done|]. rewrite IH.
    by destruct (py_remove h x l).
Qed.

Lemma put_get_list r st : put_list r (get_list r st) st = st.
Proof. by destruct st, r. Qed.

Lemma put_put_list r l l' st : put_list r l (put_list r l' st) = put_list r l st.
Proof. by destruct r. Qed.

(** X1.  [delete_entry] succeeds exactly when [exist_entry] says that the
    entry is there.  It then takes out the first element that is the entry
    or equal to it, and nothing else; without such an element it raises
    [ValueError] and leaves the registry as it is. *)
Theorem delete_entry_when_exists (entry : loc) (my_list : list_ref) (st : State) :
  let l := get_list my_list st in
  exist_entry entry my_list st = (st, Ok (py_in (heap st) entry l))
  ∧ if py_in (heap st) entry l
    then ∃ l1 e l2,
           l = l1 ++ e :: l2
           ∧ py_same (heap st) entry e = true
           ∧ Forall (λ y, py_same (heap st) entry y = false) l1
           ∧ delete_entry entry my_list st = (put_list my_list (l1 ++ l2) st, Ok tt)
    else delete_entry entry my_list st = (st, Exn ValueError).
Proof.
  cbn zeta. split; [done|].
  pose proof (py_remove_split (heap st) entry (get_list my_list st)) as H.
  unfold delete_entry.
  destruct (py_remove (heap st) entry (get_list my_list st)) as [l'|] eqn:Hrm.
  - rewrite py_in_remove, Hrm, bool_decide_eq_true_2 by eauto.
    destruct H as (l1 & e & l2 & Hl & -> & Hsame & Hbefore).
    exists l1, e, l2. by split_and!.
  - by rewrite H.
Qed.

(** X2.  An entry that has been appended to a list is found there, and its
    removal cannot fail.  The removal gives the list back when no equal
    entry was in it; when one was, that older entry goes and the appended
    one stays at the end. *)
Theorem set_entry_then_delete_entry (entry : loc) (my_list : list_ref) (st : State) :
  let l := get_list my_list st in
  (set_entry entry my_list ;; exist_entry entry my_list) st =
    (put_list my_list (l ++ [entry]) st, Ok true)
  ∧ (set_entry entry my_list ;; delete_entry entry my_list) st =
      match py_remove (heap st) entry l with
      | Some l' => (put_list my_list (l' ++ [entry]) st, Ok tt)
      | None => (st, Ok tt)
      end.
Proof.
  cbn zeta. split.
  - unfold bind, set_entry, exist_entry, modify, gets. cbn. do 2 f_equal.
    assert (Hget : get_list my_list (put_list my_list (get_list my_list st ++ [entry]) st)
                   = get_list my_list st ++ [entry]) by (by destruct my_list).
    assert (Hheap : heap (put_list my_list (get_list my_list st ++ [entry]) st) = heap st)
      by (by destruct my_list).
    rewrite Hget, Hheap. unfold py_in. rewrite existsb_app. cbn.
    by rewrite py_same_refl, orb_true_r.
  - unfold bind, set_entry, delete_entry, modify. cbn.
    assert (Hget : get_list my_list (put_list my_list (get_list my_list st ++ [entry]) st)
                   = get_list my_list st ++ [entry]) by (by destruct my_list).
    assert (Hheap : heap (put_list my_list (get_list my_list st ++ [entry]) st) = heap st)
      by (by destruct my_list).
    rewrite Hget, Hheap, py_remove_appended.
    destruct (py_remove (heap st) entry (get_list my_list st)).
    + by rewrite put_put_list.
    + by rewrite put_put_list, put_get_list.
Qed.

(** ** [clear] *)

(** X3.  [clear] empties the list it is given and nothing else: the other
    list, the store and [my_info] stay.  After the list of all functions
    has been cleared, the next call of any decorated function registers it
    anew, alone in the list, with [callcounter] 1 and [timer] 0 in place of
    its former statistics, while the statistics of the other names are
    still there. *)
Theorem clear_then_call (st : State) (f : func) :
  let st0 := (clear AllFunctions st).1 in
  let st1 := (before_call f st0).1 in
  (∀ r, get_list r (clear r st).1 = []
        ∧ heap (clear r st).1 = heap st
        ∧ my_info (clear r st).1 = my_info st
        ∧ ∀ r', r' ≠ r → get_list r' (clear r st).1 = get_list r' st)
  ∧ (before_call f st0).2 = Ok (length (heap st), clock st)
  ∧ my_list_all_functions st1 = [length (heap st)]
  ∧ names_all st1 = [qualified f]
  ∧ (∃ i, my_info st1 !! qualified f = Some i
          ∧ callcounter i = 1 ∧ timer i = 0%float)
  ∧ ∀ n, n ≠ qualified f → my_info st1 !! n = my_info st !! n.
Proof.
  cbn zeta. split.
  { intros r. split_and!; try by destruct r. intros r' Hne. by destruct r, r'. }
  assert (Hfresh : py_in (heap (clear AllFunctions st).1 ++ [record_of f])
                     (length (heap (clear AllFunctions st).1))
                     (my_list_all_functions (clear AllFunctions st).1) = false) by done.
  rewrite (before_call_unseen _ _ Hfresh). cbn.
  split_and!; try done.
  - unfold names_all. cbn. apply names_new.
  - eexists. rewrite lookup_insert_eq. done.
  - intros n Hne. by rewrite lookup_insert_ne.
Qed.

(** ** The states of a process *)

(** X4.  In a process that has only run decorated functions, what is
    active is registered and no name is active twice; [my_info] has
    statistics for the registered names and for no other; every count is
    at least 1; and no record has a node, which only the renderer gives. *)
Theorem reachable_registry (st : State) :
  reachable st →
  names_active st ⊆ names_all st
  ∧ NoDup (names_active st)
  ∧ NoDup (names_all st)
  ∧ (∀ n, is_Some (my_info st !! n) ↔ n ∈ names_all st)
  ∧ (∀ n i, my_info st !! n = Some i → 1 ≤ callcounter i)
  ∧ (∀ e, node (deref (heap st) e) = None).
Proof.
  intros Hr. pose proof (reachable_wf _ Hr) as Hwf. destruct Hr as [bs ->].
  split_and!; try apply Hwf.
  - intros n i Hi. destruct (run_all_init bs) as (_ & Hnames & Hcount).
    specialize (Hcount n). unfold counter in Hcount. rewrite Hi in Hcount. cbn in Hcount.
    assert (Hin : n ∈ calls_all bs).
    { apply elem_of_first_seen. rewrite <- Hnames. apply (wf_info _ Hwf). eauto. }
    apply times_pos in Hin. lia.
  - intros e. apply deref_node_None, Hwf.
Qed.

Lemma reachable_registry_witness :
  let st := (run Example.first_history __init__).1 in
  reachable st
  ∧ names_active st ⊆ names_all st
  ∧ NoDup (names_active st)
  ∧ NoDup (names_all st)
  ∧ (∀ n, is_Some (my_info st !! n) ↔ n ∈ names_all st)
  ∧ (∀ n i, my_info st !! n = Some i → 1 ≤ callcounter i)
  ∧ (∀ e, node (deref (heap st) e) = None).
Proof.
  cbn zeta.
  assert (Hr : reachable (run Example.first_history __init__).1)
    by (by exists [Example.first_history]).
  split; [exact Hr|]. exact (reachable_registry _ Hr).
Defined.

(** X5.  The decorator is transparent: in a process that has only run
    decorated functions, a program returns or raises what it returns or
    raises without the decorator, and the registry's own methods raise
    nothing on the way. *)
Theorem decorator_transparent (st : State) (b : body) :
  reachable st → (run b st).2 = (calls b).2.
Proof. intros Hwf%reachable_wf. apply (run_behaves b st Hwf). Qed.

Lemma decorator_transparent_witness :
  reachable (run Example.first_history __init__).1
  ∧ (run TestStoreCalls.test_store_calls (run Example.first_history __init__).1).2
    = (calls TestStoreCalls.test_store_calls).2.
Proof.
  assert (Hr : reachable (run Example.first_history __init__).1)
    by (by exists [Example.first_history]).
  split; [exact Hr|]. exact (decorator_transparent _ TestStoreCalls.test_store_calls Hr).
Defined.

(** ** The active list when nothing raises *)

Lemma before_call_active f st :
  wf st →
  filter (λ m, m ≠ qualified f) (names_active (before_call f st).1)
  = filter (λ m, m ≠ qualified f) (names_active st).
Proof.
  intros Hwf. destruct (my_info st !! qualified f) as [i|] eqn:Hi.
  - rewrite (before_call_seen _ _ _ Hwf Hi). unfold names_active. cbn.
    by rewrite names_app_old by apply Hwf.
  - rewrite (before_call_new _ _ Hwf Hi). unfold names_active. cbn.
    rewrite names_app, names_new, names_app_old by apply Hwf.
    rewrite filter_app. cbn [name record_of].
    rewrite filter_cons_False by (intros Hc; by apply Hc).
    by rewrite filter_nil, app_nil_r.
Qed.

Lemma after_call_active methodcall start_time st i :
  wf st →
  my_info st !! name (deref (heap st) methodcall) = Some i →
  names_active (after_call methodcall start_time st).1
  = filter (λ m, m ≠ name (deref (heap st) methodcall)) (names_active st).
Proof.
  intros Hwf Hi. rewrite (after_call_ok _ _ _ _ Hwf Hi). unfold names_active. cbn.
  apply names_filter.
Qed.

Lemma filter_not_called (n : string) (t t' : list string) (l : list string) :
  filter (λ m, m ∉ t') (filter (λ m, m ≠ n) (filter (λ m, m ∉ t) l))
  = filter (λ m, m ∉ n :: t ++ t') l.
Proof.
  rewrite !list_filter_filter. apply list_filter_iff. intros m.
  rewrite not_elem_of_cons, not_elem_of_app. tauto.
Qed.

Lemma filter_not_called_start (n : string) (t : list string) (l l' : list string) :
  filter (λ m, m ≠ n) l = filter (λ m, m ≠ n) l' →
  filter (λ m, m ∉ n :: t) l = filter (λ m, m ∉ n :: t) l'.
Proof.
  intros Heq.
  assert (Hsplit : ∀ k : list string,
            filter (λ m, m ∉ n :: t) k = filter (λ m, m ∉ t) (filter (λ m, m ≠ n) k)).
  { intros k. rewrite list_filter_filter. apply list_filter_iff. intros m.
    rewrite not_elem_of_cons. tauto. }
  by rewrite !Hsplit, Heq.
Qed.

Lemma quiet_returns b : quiet b = true → ∃ v, (calls b).2 = Ok v.
Proof.
  induction b as [v|e|seconds k IH|f callee IHc k IHk|f callee IHc k IHk]; cbn.
  - eauto.
  - done.
  - done.
  - intros [Hc Hk]%andb_true_iff. destruct (calls callee) as [t [v|e]]; [|done].
    destruct (IHk v Hk) as [w Hw]. destruct (calls (k v)) as [t' r]. cbn in *. eauto.
  - intros [Hc Hk]%andb_true_iff. destruct (calls callee) as [t r]. cbn in *.
    destruct (IHk r Hk) as [w Hw]. destruct (calls (k r)) as [t' r']. cbn in *. eauto.
Qed.

Lemma wrapper_active (f : func) (callee : body) st v :
  wf st →
  (calls callee).2 = Ok v →
  (∀ s, wf s → names_active (run callee s).1
                = filter (λ m, m ∉ (calls callee).1) (names_active s)) →
  wf (register_method f (run callee) st).1
  ∧ (register_method f (run callee) st).2 = Ok v
  ∧ names_active (register_method f (run callee) st).1
    = filter (λ m, m ∉ qualified f :: (calls callee).1) (names_active st).
Proof.
  intros Hwf Hv IH.
  destruct (wrapper_run f (run callee) _ _ st (run_behaves callee) Hwf)
    as (st1 & st2 & Hb & Hf1 & Hc & Hf2 & Hd & [i2 Hi2] & Hw & Hf3).
  rewrite Hv in Hw. rewrite Hw. cbn [fst snd].
  split_and!; [apply Hf3|done|].
  rewrite (after_call_active _ _ _ i2 (fl_wf _ _ _ Hf2)) by (by rewrite Hd).
  rewrite Hd. cbn [name record_of].
  pose proof (IH st1 (fl_wf _ _ _ Hf1)) as Hst2. rewrite Hc in Hst2. cbn in Hst2.
  rewrite Hst2.
  pose proof (before_call_active f st Hwf) as Hstart. rewrite Hb in Hstart. cbn in Hstart.
  rewrite (list_filter_filter _ _ (names_active st1)).
  rewrite <- (filter_not_called_start _ (calls callee).1 _ _ Hstart).
  apply list_filter_iff. intros m. rewrite not_elem_of_cons. tauto.
Qed.

Lemma quiet_active (b : body) :
  ∀ st, wf st → quiet b = true →
        names_active (run b st).1 = filter (λ m, m ∉ (calls b).1) (names_active st).
Proof.
  induction b as [v|e|seconds k IH|f callee IHc k IHk|f callee IHc k IHk];
    intros st Hwf Hq; cbn in Hq.
  - cbn. symmetry. apply filter_all, Forall_forall. intros m _. apply not_elem_of_nil.
  - done.
  - cbn [run calls]. unfold bind. cbn.
    rewrite IH; [done| |done]. apply (sleep_follows seconds st Hwf).
  - apply andb_true_iff in Hq as [Hqc Hqk].
    cbn [run calls]. destruct (calls callee) as [t [v|e]] eqn:Hcalls; [|done].
    destruct (wrapper_active f callee st v Hwf) as (Hwf3 & Hr3 & Ha3).
    { by rewrite Hcalls. }
    { intros s Hs. rewrite Hcalls. by apply IHc. }
    unfold bind. destruct (register_method f (run callee) st) as [st3 r3].
    cbn in Hwf3, Hr3, Ha3. subst r3.
    rewrite (IHk v st3 Hwf3 Hqk), Ha3. rewrite Hcalls. cbn [fst].
    destruct (calls (k v)) as [t' r']. cbn [fst].
    rewrite list_filter_filter. apply list_filter_iff. intros m.
    rewrite !not_elem_of_cons, not_elem_of_app. tauto.
  - apply andb_true_iff in Hq as [Hqc Hqk].
    cbn [run calls]. destruct (quiet_returns _ Hqc) as [v Hv].
    destruct (wrapper_active f callee st v Hwf Hv) as (Hwf3 & Hr3 & Ha3).
    { intros s Hs. by apply IHc. }
    unfold bind, catch. destruct (register_method f (run callee) st) as [st3 r3].
    cbn in Hwf3, Hr3, Ha3. subst r3.
    destruct (calls callee) as [t r] eqn:Hcalls. cbn in Hv, Hqk, Ha3. subst r.
    rewrite (IHk (Ok v) st3 Hwf3 Hqk), Ha3.
    destruct (calls (k (Ok v))) as [t' r']. cbn [fst].
    rewrite list_filter_filter. apply list_filter_iff. intros m.
    rewrite !not_elem_of_cons, not_elem_of_app. tauto.
Qed.

(** X6.  When no call of a program raises, the program leaves on the active
    list exactly the names that were there and that it has not called: every
    function that was called and has returned is off the list, the outer
    calls of a recursive function too.  From an empty active list the
    program ends with an empty one. *)
Theorem active_list_when_quiet (st : State) (b : body) :
  reachable st →
  quiet b = true →
  names_active (run b st).1 = filter (λ m, m ∉ (calls b).1) (names_active st)
  ∧ (names_active st = [] → names_active (run b st).1 = []).
Proof.
  intros Hwf%reachable_wf Hq.
  pose proof (quiet_active b st Hwf Hq) as H. split; [done|].
  intros Hnil. by rewrite H, Hnil.
Qed.

Lemma active_list_when_quiet_witness :
  reachable __init__
  ∧ quiet TestStoreCalls.test_store_calls = true
  ∧ names_active (run TestStoreCalls.test_store_calls __init__).1
    = filter (λ m, m ∉ (calls TestStoreCalls.test_store_calls).1) (names_active __init__)
  ∧ (names_active __init__ = [] →
     names_active (run TestStoreCalls.test_store_calls __init__).1 = []).
Proof.
  assert (Hr : reachable __init__) by (by exists []).
  assert (Hq : quiet TestStoreCalls.test_store_calls = true) by (vm_compute; reflexivity).
  split; [exact Hr|]. split; [exact Hq|].
  exact (active_list_when_quiet __init__ TestStoreCalls.test_store_calls Hr Hq).
Defined.

(** ** [sum_recursive] for every argument *)

Lemma calls_sum_recursive_body a n :
  calls (TestStoreCalls.sum_recursive_body a n)
  = (sum_recursive_calls n, Ok (VInt (a + Z.of_nat n))).
Proof.
  revert a. induction n as [|n IH]; intros a.
  - cbn. do 3 f_equal. lia.
  - cbn [TestStoreCalls.sum_recursive_body TestStoreCalls.print_value
           TestStoreCalls.print_value_body calls sum_recursive_calls].
    rewrite IH. cbn. rewrite app_nil_r. do 3 f_equal. lia.
Qed.

Lemma quiet_sum_recursive_body a n : quiet (TestStoreCalls.sum_recursive_body a n) = true.
Proof.
  revert a. induction n as [|n IH]; intros a; [done|].
  cbn [TestStoreCalls.sum_recursive_body TestStoreCalls.print_value
         TestStoreCalls.print_value_body quiet calls].
  rewrite IH, calls_sum_recursive_body. done.
Qed.

Lemma times_sum_recursive_calls n :
  times (qualified TestStoreCalls.sum_recursive_func) (sum_recursive_calls n) = Z.of_nat n
  ∧ times (qualified TestStoreCalls.print_value_func) (sum_recursive_calls n)
    = Z.of_nat n + 1.
Proof.
  induction n as [|n [IH1 IH2]]; [done|].
  cbn [sum_recursive_calls]. rewrite !times_cons, IH1, IH2.
  split; repeat case_decide; try done; lia.
Qed.

Lemma first_seen_sum_recursive_calls n :
  first_seen (qualified TestStoreCalls.sum_recursive_func :: sum_recursive_calls n)
  = [qualified TestStoreCalls.sum_recursive_func;
     qualified TestStoreCalls.print_value_func].
Proof.
  assert (H : first_seen (sum_recursive_calls n)
              = if n is O then [qualified TestStoreCalls.print_value_func]
                else [qualified TestStoreCalls.print_value_func;
                      qualified TestStoreCalls.sum_recursive_func]).
  { induction n as [|n IH]; [done|].
    cbn [sum_recursive_calls first_seen]. rewrite IH. by destruct n. }
  cbn [first_seen]. rewrite H. by destruct n.
Qed.

(** X7.  [sum_recursive(a, b)] in a new process, for every integer [a] and
    every [b] up to 100: it returns [a] plus [b], or [a] when [b] is
    negative; the registry has the two names, [sum_recursive] first; each
    of the two functions has been called once more than the recursion is
    deep; and the active list is empty at the end.  The bound is on the
    depth of the recursion: the interpreter ends deeper recursion with a
    [RecursionError], from 1000 open frames unless told otherwise, and
    each level opens two, the wrapper's and the function's. *)
Theorem sum_recursive_registry (a b : Z) :
  b ≤ 100 →
  let p := TestStoreCalls.sum_recursive a b Return in
  let st := (run p __init__).1 in
  (run p __init__).2 = Ok (VInt (a + Z.max 0 b))
  ∧ names_all st = [qualified TestStoreCalls.sum_recursive_func;
                    qualified TestStoreCalls.print_value_func]
  ∧ callcounter <$> my_info st !! qualified TestStoreCalls.sum_recursive_func
    = Some (Z.max 0 b + 1)
  ∧ callcounter <$> my_info st !! qualified TestStoreCalls.print_value_func
    = Some (Z.max 0 b + 1)
  ∧ names_active st = [].
Proof.
  intros _ p st.
  assert (Hcalls : calls p = (qualified TestStoreCalls.sum_recursive_func
                                :: sum_recursive_calls (Z.to_nat b),
                              Ok (VInt (a + Z.max 0 b)))).
  { unfold p, TestStoreCalls.sum_recursive. cbn [calls].
    rewrite calls_sum_recursive_body. cbn. rewrite app_nil_r. do 3 f_equal. lia. }
  assert (Hquiet : quiet p = true).
  { unfold p, TestStoreCalls.sum_recursive. cbn [quiet].
    by rewrite quiet_sum_recursive_body, calls_sum_recursive_body. }
  destruct (run_all_init [p]) as (Hwf & Hnames & Hcount).
  change (run_all [p] __init__) with st in Hwf, Hnames, Hcount.
  rewrite calls_all_one, Hcalls in Hnames, Hcount. cbn [fst] in Hnames, Hcount.
  destruct (times_sum_recursive_calls (Z.to_nat b)) as [Ht1 Ht2].
  assert (Hlook : ∀ n z, n ∈ names_all st → counter st n = z →
                         callcounter <$> my_info st !! n = Some z).
  { intros n z Hin Hz. apply (wf_info _ Hwf) in Hin as [i Hi].
    unfold counter in Hz. rewrite Hi in Hz |- *. cbn in *. by rewrite Hz. }
  split_and!.
  - rewrite (proj2 (run_behaves p __init__ wf_init)). by rewrite Hcalls.
  - rewrite Hnames. apply first_seen_sum_recursive_calls.
  - apply Hlook.
    + rewrite Hnames, first_seen_sum_recursive_calls. apply list_elem_of_here.
    + rewrite Hcount, times_cons, Ht1, decide_True by done. lia.
  - apply Hlook.
    + rewrite Hnames, first_seen_sum_recursive_calls.
      apply list_elem_of_further, list_elem_of_here.
    + rewrite Hcount, times_cons, Ht2, decide_False by done. lia.
  - unfold st. by rewrite (quiet_active p __init__ wf_init Hquiet).
Qed.

Lemma sum_recursive_registry_witness :
  3 ≤ 100
  ∧ (run (TestStoreCalls.sum_recursive 5 3 Return) __init__).2 = Ok (VInt 8)
  ∧ names_active (run (TestStoreCalls.sum_recursive 5 3 Return) __init__).1 = [].
Proof.
  assert (Hb : 3 ≤ 100) by lia.
  split; [exact Hb|]. split.
  - exact (proj1 (sum_recursive_registry 5 3 Hb)).
  - exact (proj2 (proj2 (proj2 (proj2 (sum_recursive_registry 5 3 Hb))))).
Defined.

(** ** The source of a callee and its caller *)




(** ** The sources of the registered functions *)

(** A property that both halves of the wrapper keep is kept by every
    program. *)
Lemma run_keeps (I : State → Prop) :
  (∀ st f, wf st → I st → I (before_call f st).1) →
  (∀ st methodcall start_time i,
     wf st → I st → my_info st !! name (deref (heap st) methodcall) = Some i →
     I (after_call methodcall start_time st).1) →
  (∀ st seconds, I st → I (sleep seconds st).1) →
  ∀ b st, wf st → I st → I (run b st).1.
Proof.
  intros Hbefore Hafter Hsleep.
  assert (Hwrap : ∀ f callee,
            (∀ st, wf st → I st → I (run callee st).1) →
            ∀ st, wf st → I st → I (register_method f (run callee) st).1).
  { intros f callee IH st Hwf HI.
    destruct (wrapper_run f (run callee) _ _ st (run_behaves callee) Hwf)
      as (st1 & st2 & Hb & Hf1 & Hc & Hf2 & Hd & [i2 Hi2] & Hw & _).
    assert (H1 : I st1) by (pose proof (Hbefore st f Hwf HI) as H; by rewrite Hb in H).
    assert (H2 : I st2).
    { pose proof (IH st1 (fl_wf _ _ _ Hf1) H1) as H. by rewrite Hc in H. }
    rewrite Hw. destruct (calls callee).2; [|done]. cbn.
    apply (Hafter _ _ _ i2 (fl_wf _ _ _ Hf2) H2). by rewrite Hd. }
  induction b as [v|e|seconds k IH|f callee IHc k IHk|f callee IHc k IHk];
    intros st Hwf HI; cbn [run].
  - done.
  - done.
  - unfold bind. cbn. apply IH; [apply (sleep_follows seconds st Hwf)|by apply Hsleep].
  - pose proof (Hwrap f callee IHc st Hwf HI) as H3.
    pose proof (proj1 (wrapper_behaves f _ _ _ (run_behaves callee) st Hwf)) as Hf3.
    unfold bind. destruct (register_method f (run callee) st) as [st3 [v|e]]; [|done].
    apply IHk; [apply Hf3|done].
  - pose proof (Hwrap f callee IHc st Hwf HI) as H3.
    pose proof (proj1 (wrapper_behaves f _ _ _ (run_behaves callee) st Hwf)) as Hf3.
    unfold bind, catch. destruct (register_method f (run callee) st) as [st3 r].
    apply IHk; [apply Hf3|done].
Qed.

Lemma sources_of_put_heap st f e :
  (e < length (heap st))%nat →
  sources_of (put_heap (heap st ++ [record_of f]) st) e = sources_of st e.
Proof. intros He. unfold sources_of. cbn. by rewrite deref_app_old. Qed.

Lemma sources_ok_before f st : wf st → sources_ok st → sources_ok (before_call f st).1.
Proof.
  intros Hwf [Hact Hsrc].
  assert (Hvalid : ∀ k e, my_list_all_functions st !! k = Some e →
                          (e < length (heap st))%nat).
  { intros k e He. by apply (Forall_lookup_1 _ _ _ _ (wf_all _ Hwf) He). }
  destruct (my_info st !! qualified f) as [i|] eqn:Hi.
  - rewrite (before_call_seen _ _ _ Hwf Hi). split; cbn [fst]; [done|].
    intros k e He. cbn in He. specialize (Hsrc k e He).
    unfold sources_of in *. cbn. rewrite deref_app_old by eauto.
    rewrite lookup_insert. destruct (decide (qualified f = name (deref (heap st) e))) as [Heq|Hne].
    + rewrite <- Heq, Hi in Hsrc. cbn in *. exact Hsrc.
    + exact Hsrc.
  - assert (Hnin : qualified f ∉ names_all st).
    { intros Hin. apply (wf_info _ Hwf) in Hin as [? ?]. congruence. }
    rewrite (before_call_new _ _ Hwf Hi). split; cbn [fst].
    + cbn. intros e [He|He]%elem_of_app; apply elem_of_app; [left; by apply Hact|by right].
    + intros k e He. cbn in He.
      destruct (decide (k < length (my_list_all_functions st))%nat) as [Hlt|Hge].
      * rewrite lookup_app_l in He by done. specialize (Hsrc k e He).
        assert (Hname : name (deref (heap st) e) ≠ qualified f).
        { intros Hc. apply Hnin. rewrite <- Hc.
          apply (list_elem_of_fmap_2 (λ e, name (deref (heap st) e))).
          by eapply list_elem_of_lookup_2. }
        unfold sources_of in *. cbn. rewrite deref_app_old by eauto.
        rewrite lookup_insert_ne by done.
        destruct Hsrc as [Hnil|(j & top & Hj & Htop & Hone)]; [by left|].
        right. exists j, top. split_and!; [done| |done].
        rewrite lookup_app_l; [done|]. by eapply lookup_lt_Some.
      * rewrite lookup_app_r in He by lia.
        apply list_lookup_singleton_Some in He as [Hk <-].
        unfold sources_of. cbn. rewrite deref_app_new. cbn [name record_of].
        rewrite lookup_insert_eq. cbn.
        destruct (last (my_list_source_functions st)) as [top|] eqn:Htop; [|by left].
        right. apply last_Some_elem_of, Hact, list_elem_of_lookup in Htop as [j Hj].
        exists j, top. pose proof (lookup_lt_Some _ _ _ Hj).
        split_and!; [lia| |done]. by rewrite lookup_app_l.
Qed.

Lemma sources_ok_after methodcall start_time st i :
  wf st → sources_ok st →
  my_info st !! name (deref (heap st) methodcall) = Some i →
  sources_ok (after_call methodcall start_time st).1.
Proof.
  intros Hwf [Hact Hsrc] Hi. rewrite (after_call_ok _ _ _ _ Hwf Hi). split; cbn [fst].
  - cbn. intros e [_ He]%list_elem_of_filter. by apply Hact.
  - intros k e He. cbn in He. specialize (Hsrc k e He).
    unfold sources_of in *. cbn. rewrite lookup_insert.
    destruct (decide (name (deref (heap st) methodcall) = name (deref (heap st) e)))
      as [Heq|Hne]; [|exact Hsrc].
    rewrite <- Heq, Hi in Hsrc. cbn in *. exact Hsrc.
Qed.

Lemma sources_ok_run b st : wf st → sources_ok st → sources_ok (run b st).1.
Proof.
  apply (run_keeps sources_ok).
  - intros s f. apply sources_ok_before.
  - intros s mc t0 i. apply sources_ok_after.
  - intros s d [Hact Hsrc]. by split.
Qed.

Lemma reachable_sources_ok st : reachable st → sources_ok st.
Proof.
  intros [bs ->].
  assert (H : ∀ st, wf st → sources_ok st → sources_ok (run_all bs st)).
  { induction bs as [|b bs IH]; intros st Hwf Hok; [done|].
    cbn. apply IH; [|by apply sources_ok_run].
    apply (fl_wf _ _ _ (proj1 (run_behaves b st Hwf))). }
  apply H; [apply wf_init|]. split; [done|]. intros k e He. done.
Qed.

(** X9.  The registered functions form a forest.  In a process that has
    only run decorated functions, every registered function has either no
    source or one, and that source is a record of the list of all functions
    that stands before the function's own record and has another name; and
    every active record is one of the registered records. *)
Theorem sources_form_a_forest (st : State) :
  reachable st →
  my_list_source_functions st ⊆ my_list_all_functions st
  ∧ ∀ k e, my_list_all_functions st !! k = Some e →
      sources_of st e = []
      ∨ ∃ j top, (j < k)%nat
                 ∧ my_list_all_functions st !! j = Some top
                 ∧ sources_of st e = [top]
                 ∧ name (deref (heap st) top) ≠ name (deref (heap st) e).
Proof.
  intros Hr. pose proof (reachable_wf _ Hr) as Hwf.
  destruct (reachable_sources_ok _ Hr) as [Hact Hsrc].
  split; [done|]. intros k e He.
  destruct (Hsrc k e He) as [Hnil|(j & top & Hj & Htop & Hone)]; [by left|].
  right. exists j, top. split_and!; try done.
  intros Heq. pose proof (wf_all_nodup _ Hwf) as Hnd.
  assert (j = k); [|lia].
  eapply (NoDup_lookup _ _ _ _ Hnd); unfold names_all, names; rewrite list_lookup_fmap.
  - rewrite Htop. cbn. by rewrite Heq.
  - by rewrite He.
Qed.

Lemma sources_form_a_forest_witness :
  let st := (run Example.first_history __init__).1 in
  reachable st
  ∧ my_list_source_functions st ⊆ my_list_all_functions st
  ∧ ∀ k e, my_list_all_functions st !! k = Some e →
      sources_of st e = []
      ∨ ∃ j top, (j < k)%nat
                 ∧ my_list_all_functions st !! j = Some top
                 ∧ sources_of st e = [top]
                 ∧ name (deref (heap st) top) ≠ name (deref (heap st) e).
Proof.
  cbn zeta.
  assert (Hr : reachable (run Example.first_history __init__).1)
    by (by exists [Example.first_history]).
  split; [exact Hr|]. exact (sources_form_a_forest _ Hr).
Defined.

(** ** The renderer, in any state *)

Lemma add_functions_render_any l g s : renders s (fold_M add_function g l s).1.
Proof.
  revert g s. induction l as [|x l IH]; intros g s; [apply renders_refl|].
  cbn [fold_M]. unfold bind.
  pose proof (add_function_state g x s) as Hst.
  destruct (add_function g x s) as [sx [gx|e]]; cbn in Hst.
  - eapply renders_trans; [|apply IH].
    subst sx. destruct (my_info s !! _); [apply with_node_renders|apply renders_refl].
  - cbn. subst sx. destruct (my_info s !! _); [apply with_node_renders|apply renders_refl].
Qed.

Lemma chart_renders_any st : renders st (make_graphviz_chart st).1.
Proof.
  unfold make_graphviz_chart. unfold bind at 1. unfold gets at 1. unfold bind at 1.
  pose proof (read_timers_state (my_list_all_functions st) st) as Hst.
  destruct (fold_M _ tt _ st) as [s1 [[]|e1]]; cbn in Hst; subst s1.
  - apply add_functions_render_any.
  - apply renders_refl.
Qed.

Lemma read_timers_missing l1 e l2 st :
  Forall (λ x, is_Some (my_info st !! name (deref (heap st) x))) l1 →
  my_info st !! name (deref (heap st) e) = None →
  fold_M (λ (_ : unit) item, key <- name_of item ;; _ <- info_of key ;; ret tt)
         tt (l1 ++ e :: l2) st
  = (st, Exn (KeyError (name (deref (heap st) e)))).
Proof.
  intros Hl1 He. induction Hl1 as [|x l1 [i Hi] _ IH]; cbn [app fold_M].
  - unfold bind, name_of, gets, info_of. cbn. by rewrite He.
  - unfold bind at 1. unfold bind at 1. unfold bind at 1.
    unfold name_of at 1, gets at 1, info_of at 1, ret at 1. cbn. rewrite Hi. apply IH.
Qed.

Lemma read_timers_ok l st :
  Forall (λ x, is_Some (my_info st !! name (deref (heap st) x))) l →
  fold_M (λ (_ : unit) item, key <- name_of item ;; _ <- info_of key ;; ret tt) tt l st
  = (st, Ok tt).
Proof.
  induction 1 as [|x l [i Hi] _ IH]; [done|]. cbn [fold_M].
  unfold bind at 1. unfold bind at 1. unfold bind at 1.
  unfold name_of at 1, gets at 1, info_of at 1, ret at 1. cbn. rewrite Hi. apply IH.
Qed.

(** X10.  Whatever the state and whether it returns or raises,
    [make_graphviz_chart] leaves both lists, the statistics and the clock as
    they are, renames no record and takes no node away: all it writes to the
    registry are nodes of registered records. *)
Theorem chart_keeps_registry (st : State) :
  let st' := (make_graphviz_chart st).1 in
  my_list_all_functions st' = my_list_all_functions st
  ∧ my_list_source_functions st' = my_list_source_functions st
  ∧ my_info st' = my_info st
  ∧ clock st' = clock st
  ∧ names_all st' = names_all st
  ∧ names_active st' = names_active st
  ∧ (∀ e, name (deref (heap st') e) = name (deref (heap st) e))
  ∧ (∀ e, is_Some (node (deref (heap st) e)) → is_Some (node (deref (heap st') e)))
  ∧ (∀ e, e ∉ my_list_all_functions st →
          node (deref (heap st') e) = node (deref (heap st) e)).
Proof.
  intros st'. destruct (chart_renders_any st) as [Ha Hs Hi Hc Hl Hn Hd]. fold st' in Ha, Hs, Hi, Hc, Hl, Hn, Hd.
  split_and!; try done.
  - unfold names_all, names. rewrite Ha. apply list_fmap_ext. intros _ e _. apply Hn.
  - unfold names_active, names. rewrite Hs. apply list_fmap_ext. intros _ e _. apply Hn.
  - unfold st', make_graphviz_chart. unfold bind at 1. unfold gets at 1. unfold bind at 1.
    pose proof (read_timers_state (my_list_all_functions st) st) as Hst.
    destruct (fold_M _ tt _ st) as [s1 [[]|e1]]; cbn in Hst; subst s1; [|done].
    cbn [fst snd]. generalize {| graph_nodes := []; graph_edges := [] |}.
    generalize (my_list_all_functions st) as l. clear. intros l. revert st.
    induction l as [|x l IH]; intros st g e He; [done|].
    apply not_elem_of_cons in He as [Hne He].
    cbn [fold_M]. unfold bind.
    pose proof (add_function_state g x st) as Hst.
    assert (Hx : ∀ s, s = with_node x st ∨ s = st →
                      node (deref (heap s) e) = node (deref (heap st) e)).
    { intros s [->| ->]; [|done]. unfold with_node. cbn.
      rewrite deref_insert, decide_False; [done|]. by intros [? _]. }
    destruct (add_function g x st) as [sx [gx|ex]]; cbn in Hst.
    + rewrite IH by done. apply Hx. subst sx. destruct (my_info st !! _); eauto.
    + cbn. apply Hx. subst sx. destruct (my_info st !! _); eauto.
Qed.

(** X11.  [make_graphviz_chart] reads the timer of every registered
    function before it draws anything: when a registered name has no
    statistics, the chart raises [KeyError] with the first such name and the
    registry is as it was, no record has got a node. *)
Theorem chart_without_statistics (st : State) (l1 l2 : list loc) (e : loc) :
  my_list_all_functions st = l1 ++ e :: l2 →
  Forall (λ x, is_Some (my_info st !! name (deref (heap st) x))) l1 →
  my_info st !! name (deref (heap st) e) = None →
  make_graphviz_chart st = (st, Exn (KeyError (name (deref (heap st) e)))).
Proof.
  intros Hall Hl1 He. unfold make_graphviz_chart.
  unfold bind at 1. unfold gets at 1. unfold bind at 1.
  by rewrite Hall, (read_timers_missing _ _ _ _ Hl1 He).
Qed.

Lemma chart_without_statistics_witness :
  let st := (methodcall <- new_MethodCall "m.f" ;; set_entry methodcall AllFunctions)
              (run Example.one_call __init__).1 in
  my_list_all_functions st.1 = [0%nat] ++ 1%nat :: []
  ∧ Forall (λ x, is_Some (my_info st.1 !! name (deref (heap st.1) x))) [0%nat]
  ∧ my_info st.1 !! name (deref (heap st.1) 1%nat) = None
  ∧ make_graphviz_chart st.1 = (st.1, Exn (KeyError "m.f")).
Proof.
  cbn zeta.
  assert (Hall : my_list_all_functions
                   ((methodcall <- new_MethodCall "m.f" ;; set_entry methodcall AllFunctions)
                      (run Example.one_call __init__).1).1 = [0%nat] ++ 1%nat :: [])
    by (vm_compute; reflexivity).
  assert (Hl1 : Forall (λ x, is_Some (my_info
                   ((methodcall <- new_MethodCall "m.f" ;; set_entry methodcall AllFunctions)
                      (run Example.one_call __init__).1).1
                   !! name (deref (heap
                   ((methodcall <- new_MethodCall "m.f" ;; set_entry methodcall AllFunctions)
                      (run Example.one_call __init__).1).1) x))) [0%nat]).
  { apply Forall_singleton. vm_compute. by eexists. }
  assert (He : my_info
                   ((methodcall <- new_MethodCall "m.f" ;; set_entry methodcall AllFunctions)
                      (run Example.one_call __init__).1).1
                 !! name (deref (heap
                   ((methodcall <- new_MethodCall "m.f" ;; set_entry methodcall AllFunctions)
                      (run Example.one_call __init__).1).1) 1%nat) = None)
    by (vm_compute; reflexivity).
  split_and!; [exact Hall|exact Hl1|exact He|].
  exact (chart_without_statistics _ _ _ _ Hall Hl1 He).
Defined.

(** ** The renderer after decorated calls *)

Lemma edges_into_ext h h' srcs e :
  node (deref h e) = node (deref h' e) →
  Forall (λ top, node (deref h top) = node (deref h' top)) srcs →
  edges_into h srcs e = edges_into h' srcs e.
Proof.
  intros He Hs. unfold edges_into. apply list_omap_ext.
  induction Hs as [|top srcs Htop _ IH]; constructor; [|done].
  by rewrite Htop, He.
Qed.

Lemma bind_length_ext {A B C} (f : A → list B) (g : A → list C) (l : list A) :
  (∀ k e, l !! k = Some e → length (f e) = length (g e)) →
  length (l ≫= f) = length (l ≫= g).
Proof.
  induction l as [|x l IH]; intros H; [done|].
  rewrite !bind_cons, !length_app, (H 0%nat x eq_refl), IH; [done|].
  intros k e He. apply (H (S k) e He).
Qed.

Lemma edges_into_cons h top srcs e a b :
  node (deref h top) = Some a → node (deref h e) = Some b →
  edges_into h (top :: srcs) e = (a, b) :: edges_into h srcs e.
Proof. intros Ha Hb. unfold edges_into. cbn. by rewrite Ha, Hb. Qed.

Lemma add_edges_ok x g srcs s b :
  node (deref (heap s) x) = Some b →
  Forall (λ top, is_Some (node (deref (heap s) top))) srcs →
  fold_M (add_edges x) g srcs s =
    (s, Ok {| graph_nodes := graph_nodes g;
              graph_edges := graph_edges g ++ edges_into (heap s) srcs x |}).
Proof.
  intros Hx Hs. revert g. induction Hs as [|top srcs [a Ha] _ IH]; intros g.
  - cbn. rewrite app_nil_r. by destruct g.
  - rewrite (edges_into_cons _ _ _ _ _ _ Ha Hx).
    cbn [fold_M]. unfold bind at 1. unfold add_edges at 1.
    unfold bind, node_of, gets, ret. cbn -[edges_into]. rewrite Ha, Hx.
    cbn -[edges_into]. rewrite IH. cbn -[edges_into].
    by rewrite <- app_assoc.
Qed.

Lemma add_function_ok g x s i :
  my_info s !! name (deref (heap s) x) = Some i →
  (x < length (heap s))%nat →
  Forall (λ top, is_Some (node (deref (heap s) top))) (source_functions i) →
  add_function g x s =
    (with_node x s,
     Ok {| graph_nodes := graph_nodes g ++ [handles s];
           graph_edges := graph_edges g
                          ++ edges_into (heap (with_node x s)) (source_functions i) x |}).
Proof.
  intros Hi Hx Hs.
  unfold add_function. unfold bind at 1. unfold name_of at 1, gets. cbn.
  unfold bind at 1. unfold info_of at 1. rewrite Hi.
  unfold bind at 1. unfold new_Node at 1. unfold bind at 1. unfold set_node at 1, modify.
  cbn. unfold bind at 1. unfold info_of at 1. cbn. rewrite Hi.
  fold (with_node x s).
  erewrite add_edges_ok; [done| |].
  - unfold with_node. cbn. by rewrite deref_insert, decide_True.
  - eapply Forall_impl; [exact Hs|]. intros top. apply (rd_node _ _ (with_node_renders x s)).
Qed.

Lemma sources_of_renders s s' e : renders s s' → sources_of s' e = sources_of s e.
Proof.
  intros Hr. unfold sources_of. by rewrite (rd_info _ _ Hr), (rd_name _ _ Hr).
Qed.

Lemma add_functions_ok :
  ∀ todo done s g,
    NoDup (done ++ todo) →
    Forall (λ e, e < length (heap s))%nat (done ++ todo) →
    (∀ e, e ∈ done ++ todo → is_Some (my_info s !! name (deref (heap s) e))) →
    (∀ e, e ∈ done → is_Some (node (deref (heap s) e))) →
    (∀ pre x post, todo = pre ++ x :: post → sources_of s x ⊆ done ++ pre) →
    ∃ s' g',
      fold_M add_function g todo s = (s', Ok g')
      ∧ renders s s'
      ∧ (∀ e, e ∈ done → node (deref (heap s') e) = node (deref (heap s) e))
      ∧ (∀ k e, todo !! k = Some e →
                node (deref (heap s') e) = Some (handles s + k)%nat)
      ∧ graph_nodes g' = graph_nodes g ++ seq (handles s) (length todo)
      ∧ graph_edges g' =
          graph_edges g ++ (todo ≫= (λ e, edges_into (heap s') (sources_of s e) e)).
Proof.
  induction todo as [|x rest IH]; intros done s g Hnd Hvalid Hinfo Hnodes Hsrc.
  - exists s, g. cbn. rewrite !app_nil_r. split_and!; try done; apply renders_refl.
  - assert (Hx_in : x ∈ done ++ x :: rest)
      by (apply elem_of_app; right; apply list_elem_of_here).
    destruct (Hinfo x Hx_in) as [i Hi].
    assert (Hx_valid : (x < length (heap s))%nat)
      by (by apply (proj1 (Forall_forall _ _) Hvalid)).
    assert (Hx_src : sources_of s x ⊆ done).
    { specialize (Hsrc [] x rest eq_refl). by rewrite app_nil_r in Hsrc. }
    assert (Hsrc_i : source_functions i = sources_of s x)
      by (unfold sources_of; by rewrite Hi).
    assert (Htops : Forall (λ top, is_Some (node (deref (heap s) top))) (source_functions i)).
    { apply Forall_forall. intros top Htop. apply Hnodes, Hx_src. by rewrite <- Hsrc_i. }
    pose proof (with_node_renders x s) as Hr1.
    assert (Hx_notin : x ∉ done).
    { intros Hin. apply NoDup_app in Hnd as (_ & Hdisj & _).
      apply (Hdisj x Hin), list_elem_of_here. }
    assert (Hkeep : ∀ e, e ≠ x →
              node (deref (heap (with_node x s)) e) = node (deref (heap s) e)).
    { intros e Hne. unfold with_node. cbn.
      rewrite deref_insert, decide_False; [done|]. intros [? _]. by apply Hne. }
    assert (Hx_node : node (deref (heap (with_node x s)) x) = Some (handles s)).
    { unfold with_node. cbn. by rewrite deref_insert, decide_True. }
    destruct (IH (done ++ [x]) (with_node x s)
                 {| graph_nodes := graph_nodes g ++ [handles s];
                    graph_edges := graph_edges g
                       ++ edges_into (heap (with_node x s)) (source_functions i) x |})
      as (s' & g' & Hrun & Hr2 & Hdone & Htodo & Hgn & Hge).
    + by rewrite <- app_assoc.
    + rewrite <- app_assoc. cbn [app]. by rewrite (rd_length _ _ Hr1).
    + intros e He. rewrite <- app_assoc in He. cbn in He.
      rewrite (rd_info _ _ Hr1), (rd_name _ _ Hr1). by apply Hinfo.
    + intros e [He| ->%list_elem_of_singleton]%elem_of_app.
      * apply (rd_node _ _ Hr1). by apply Hnodes.
      * by eexists.
    + intros pre y post Hrest. rewrite (sources_of_renders _ _ _ Hr1).
      rewrite <- app_assoc. cbn. apply (Hsrc (x :: pre) y post). by rewrite Hrest.
    + exists s', g'. split_and!.
      * cbn [fold_M]. unfold bind. by rewrite (add_function_ok _ _ _ _ Hi Hx_valid Htops).
      * by eapply renders_trans.
      * intros e He. rewrite Hdone by (apply elem_of_app; by left).
        apply Hkeep. intros ->. by apply Hx_notin.
      * intros k e Hk. destruct k as [|k]; cbn in Hk.
        -- injection Hk as <-. rewrite Hdone, Hx_node.
           ++ f_equal. lia.
           ++ apply elem_of_app. right. apply list_elem_of_here.
        -- rewrite (Htodo k e Hk). unfold with_node. cbn. f_equal. lia.
      * rewrite Hgn. cbn. rewrite <- app_assoc. done.
      * rewrite Hge. cbn. rewrite <- app_assoc. f_equal. f_equal.
        -- rewrite Hsrc_i. symmetry. apply edges_into_ext.
           ++ apply Hdone, elem_of_app. right. apply list_elem_of_here.
           ++ apply Forall_forall. intros top Htop.
              apply Hdone, elem_of_app. left. by apply Hx_src.
        -- apply list_bind_ext; [|done]. intros e.
           by rewrite (sources_of_renders _ _ _ Hr1).
Qed.

Lemma edges_into_length h srcs e :
  is_Some (node (deref h e)) →
  Forall (λ top, is_Some (node (deref h top))) srcs →
  length (edges_into h srcs e) = length srcs.
Proof.
  intros [b Hb] Hs. induction Hs as [|top srcs [a Ha] _ IH]; [done|].
  rewrite (edges_into_cons _ _ _ _ _ _ Ha Hb). cbn [length]. by rewrite IH.
Qed.

(** X12.  After any history of decorated calls [make_graphviz_chart]
    returns: it raises neither [KeyError] nor the [ValueError] of an edge
    without a node.  Every registered function gets a node of its own, in
    the order of the list; the edges are the pairs of a source's node and
    its function's node, in that order, one for every source; and the
    registry is otherwise as it was. *)
Theorem chart_after_calls (st : State) :
  reachable st →
  ∃ st' g,
    make_graphviz_chart st = (st', Ok g)
    ∧ graph_nodes g = seq (handles st) (length (my_list_all_functions st))
    ∧ NoDup (graph_nodes g)
    ∧ (∀ k e, my_list_all_functions st !! k = Some e →
              node (deref (heap st') e) = Some (handles st + k)%nat)
    ∧ graph_edges g =
        my_list_all_functions st ≫= (λ e, edges_into (heap st') (sources_of st e) e)
    ∧ length (graph_edges g) = length (my_list_all_functions st ≫= sources_of st)
    ∧ my_info st' = my_info st
    ∧ names_all st' = names_all st.
Proof.
  intros Hr. pose proof (reachable_wf _ Hr) as Hwf.
  destruct (reachable_sources_ok _ Hr) as [Hact Hsrc].
  assert (Hinfo : ∀ e, e ∈ my_list_all_functions st →
                       is_Some (my_info st !! name (deref (heap st) e))).
  { intros e He. apply (wf_info _ Hwf).
    by apply (list_elem_of_fmap_2 (λ e, name (deref (heap st) e))). }
  assert (Hnd : NoDup (my_list_all_functions st)).
  { apply (NoDup_fmap_1 (λ e, name (deref (heap st) e))), (wf_all_nodup _ Hwf). }
  assert (Hbefore : ∀ pre x post, my_list_all_functions st = pre ++ x :: post →
                                  sources_of st x ⊆ [] ++ pre).
  { intros pre x post Hall. cbn.
    assert (Hx : my_list_all_functions st !! length pre = Some x)
      by (by rewrite Hall, list_lookup_middle).
    destruct (Hsrc _ _ Hx) as [-> |(j & top & Hj & Htop & ->)].
    - intros e He. by apply elem_of_nil in He.
    - intros e ->%list_elem_of_singleton.
      rewrite Hall, lookup_app_l in Htop by done. by eapply list_elem_of_lookup_2. }
  destruct (add_functions_ok (my_list_all_functions st) [] st
              {| graph_nodes := []; graph_edges := [] |})
    as (st' & g & Hrun & Hrd & _ & Hnodes & Hgn & Hge); try done.
  { apply Hwf. }
  { intros e He. by apply elem_of_nil in He. }
  exists st', g. cbn in Hgn, Hge. split_and!; try done.
  - unfold make_graphviz_chart. unfold bind at 1. unfold gets at 1. unfold bind at 1.
    rewrite read_timers_ok; [done|]. apply Forall_forall. intros e He. by apply Hinfo.
  - rewrite Hgn. apply NoDup_seq.
  - rewrite Hge. apply bind_length_ext. intros k e He.
    apply edges_into_length.
    + rewrite (Hnodes _ _ He). by eexists.
    + apply Forall_forall. intros top Htop.
      destruct (Hsrc _ _ He) as [Hnil|(j & top' & Hj & Htop' & Hone)].
      * rewrite Hnil in Htop. by apply elem_of_nil in Htop.
      * rewrite Hone in Htop. apply list_elem_of_singleton in Htop as ->.
        rewrite (Hnodes _ _ Htop'). by eexists.
  - apply Hrd.
  - unfold names_all, names. rewrite (rd_all _ _ Hrd). apply list_fmap_ext.
    intros _ e _. apply (rd_name _ _ Hrd).
Qed.

Lemma chart_after_calls_witness :
  let st := (run TestStoreCalls.test_store_calls __init__).1 in
  reachable st
  ∧ ∃ st' g,
      make_graphviz_chart st = (st', Ok g)
      ∧ graph_nodes g = seq (handles st) (length (my_list_all_functions st))
      ∧ NoDup (graph_nodes g)
      ∧ (∀ k e, my_list_all_functions st !! k = Some e →
                node (deref (heap st') e) = Some (handles st + k)%nat)
      ∧ graph_edges g =
          my_list_all_functions st ≫= (λ e, edges_into (heap st') (sources_of st e) e)
      ∧ length (graph_edges g) = length (my_list_all_functions st ≫= sources_of st)
      ∧ my_info st' = my_info st
      ∧ names_all st' = names_all st.
Proof.
  cbn zeta.
  assert (Hr : reachable (run TestStoreCalls.test_store_calls __init__).1)
    by (by exists [TestStoreCalls.test_store_calls]).
  split; [exact Hr|]. exact (chart_after_calls _ Hr).
Defined.

(** * The metaclass under threads *)

Lemma lookup_turn (t t' : nat) (l : list Meta.point) (p q x : Meta.point) :
  l !! t = Some p → <[t := q]> l !! t' = Some x →
  (t' = t ∧ x = q) ∨ (t' ≠ t ∧ l !! t' = Some x).
Proof.
  intros Hp E. destruct (decide (t' = t)) as [->|Ht].
  - left. rewrite list_lookup_insert_eq in E by (by eapply lookup_lt_Some). naive_solver.
  - right. by rewrite list_lookup_insert_ne in E.
Qed.

Lemma lookup_turn_other (t t' : nat) (l : list Meta.point) (p q x : Meta.point) :
  l !! t = Some p → l !! t' = Some x → p ≠ x → <[t := q]> l !! t' = Some x.
Proof.
  intros Hp Hx Hne. rewrite list_lookup_insert_ne; [done|]. intros ->. congruence.
Qed.

Ltac turned Hp :=
  repeat match goal with
  | |- _ ≠ _ => intros ?
  | H : <[_ := _]> _ !! _ = Some _ |- _ =>
      apply (lookup_turn _ _ _ _ _ _ Hp) in H; destruct H as [[-> H]|[? H]];
      [try discriminate H; simplify_eq|]
  end.

Ltac conflict Hs :=
  exfalso;
  match goal with
  | H : _ !! _ = Some (Meta.Raised _) |- _ => by eapply (Meta.sf_raised _ Hs)
  | Hn : ?a ≠ ?b, H1 : _ !! ?a = Some ?p, H2 : _ !! ?b = Some ?q |- _ =>
      apply Hn; by apply (Meta.sf_alone _ Hs a b p q H1 H2)
  | Hl : Meta._lock _ = false, H1 : _ !! _ = Some ?p |- _ =>
      assert (Meta._lock _ = true) as Ht
        by (eapply (Meta.sf_lock _ Hs); [exact H1|done]);
      cbn in Ht; congruence
  end.

Ltac kept Hs Hp :=
  match goal with
  | H : Meta.objects _ !! ?j = Some ?c |- _ ∨ _ =>
      destruct (Meta.sf_object _ Hs _ _ H) as [?|[t' ?]];
      [by left|right; exists t'; by eapply lookup_turn_other]
  end.

Lemma turn_safe (t : nat) (w : Meta.world) : Meta.safe w → Meta.safe (Meta.turn t w).
Proof.
  intros Hs. unfold Meta.turn. destruct (Meta.threads w !! t) as [p|] eqn:Hp; [|done].
  destruct w as [m l]. cbn in *.
  destruct p as [c|c|c|c i|c|c|c i|c]; cbn.
  - destruct (Meta._lock m) eqn:Hl.
    + rewrite list_insert_id by done. done.
    + pose proof Hs as []. cbn in *. split; cbn; intros; turned Hp; try done; eauto.
      all: first [kept Hs Hp|conflict Hs|idtac].
  - case_bool_decide as Hc.
    + pose proof Hs as []. cbn in *. split; cbn; intros; turned Hp; try done; eauto.
      all: first [kept Hs Hp|conflict Hs|idtac].
    + apply eq_None_not_Some in Hc.
      pose proof Hs as []. cbn in *. split; cbn; intros; turned Hp; try done; eauto.
      all: first [kept Hs Hp|conflict Hs|idtac].
  - pose proof Hs as []. pose proof (sf_construct _ _ Hp) as Hc.
    cbn in *. split; cbn; intros; turned Hp; try done; eauto.
    all: first [kept Hs Hp|conflict Hs|idtac].
    + apply lookup_app_l_Some. eauto.
    + split; [done|]. by rewrite lookup_app_r, Nat.sub_diag.
    + match goal with H : (_ ++ _) !! _ = Some _ |- _ =>
        apply lookup_app_Some in H as [H|[Hj H]] end.
      * kept Hs Hp.
      * apply list_lookup_singleton_Some in H as [Hj' <-].
        right. exists t. rewrite list_lookup_insert_eq by (by eapply lookup_lt_Some).
        do 2 f_equal. lia.
  - pose proof Hs as []. destruct (sf_store _ _ _ Hp) as [Hc Hi].
    cbn in *. split; cbn; intros; turned Hp; try done; eauto.
    all: first [kept Hs Hp|conflict Hs|idtac].
    + match goal with H : <[_:=_]> _ !! _ = Some _ |- _ =>
        apply lookup_insert_Some in H as [[<- <-]|[? H]] end; eauto.
    + match goal with H : Meta.objects _ !! _ = Some _ |- _ =>
        destruct (sf_object _ _ H) as [Hr|[t' Ht']] end.
      * left. rewrite lookup_insert_ne; [done|]. intros <-. congruence.
      * destruct (decide (t' = t)) as [->|Hne].
        -- left. simplify_eq. by rewrite lookup_insert_eq.
        -- right. exists t'. by rewrite list_lookup_insert_ne.
    + by rewrite lookup_insert_eq.
    + apply lookup_insert_is_Some. destruct (decide (c = c0)); [by left|right; eauto].
    + rewrite lookup_insert_ne; [eauto|]. intros <-.
      match goal with H : _ !! _ = Some (Meta.Returned _ _) |- _ =>
        apply sf_returned in H end. congruence.
  - pose proof Hs as []. cbn in *. split; cbn; intros; turned Hp; try done; eauto.
    all: first [kept Hs Hp|conflict Hs|idtac].
  - destruct (Meta._instances m !! c) as [i|] eqn:Hc.
    + pose proof Hs as []. cbn in *. split; cbn; intros; turned Hp; try done; eauto.
      all: first [kept Hs Hp|conflict Hs|idtac].
    + destruct (Meta.sf_return _ Hs _ _ Hp) as [i Hi]. cbn in Hi. congruence.
  - rewrite list_insert_id by done. done.
  - rewrite list_insert_id by done. done.
Qed.

Lemma start_safe (classes : list Meta.cls) : Meta.safe (Meta.start Meta.empty classes).
Proof.
  assert (∀ t p, (Meta.AtAcquire <$> classes) !! t = Some p → ∃ c, p = Meta.AtAcquire c)
    as Hstart.
  { intros t p H. apply list_lookup_fmap_Some in H as (c & -> & _). by exists c. }
  split; cbn; intros;
    repeat match goal with
    | |- _ ≠ _ => intros ?
    | H : (_ <$> _) !! _ = Some _ |- _ => apply Hstart in H as [? ?]; simplify_eq
    end; try done.
Qed.

Lemma schedule_safe (sched : list nat) (w : Meta.world) :
  Meta.safe w → Meta.safe (Meta.schedule sched w).
Proof.
  revert w. induction sched as [|t sched IH]; intros w Hs; [done|].
  change (Meta.schedule (t :: sched) w) with (Meta.schedule sched (Meta.turn t w)).
  apply IH. by apply turn_safe.
Qed.

Lemma statement_class (p : Meta.point) (m : Meta.state) :
  Meta.class_of (Meta.statement p m).2 = Meta.class_of p.
Proof.
  destruct p; cbn; try done.
  - by destruct (Meta._lock m).
  - by case_bool_decide.
  - by destruct (Meta._instances m !! c).
Qed.

Lemma turn_classes (t : nat) (w : Meta.world) :
  Meta.class_of <$> Meta.threads (Meta.turn t w) = Meta.class_of <$> Meta.threads w.
Proof.
  unfold Meta.turn. destruct (Meta.threads w !! t) as [p|] eqn:Hp; [|done].
  pose proof (statement_class p (Meta.meta w)) as Hc.
  destruct (Meta.statement p (Meta.meta w)) as [m p']. cbn in *.
  rewrite list_fmap_insert, Hc. apply list_insert_id. by rewrite list_lookup_fmap, Hp.
Qed.

Lemma schedule_classes (sched : list nat) (w : Meta.world) :
  Meta.class_of <$> Meta.threads (Meta.schedule sched w) = Meta.class_of <$> Meta.threads w.
Proof.
  revert w. induction sched as [|t sched IH]; intros w; [done|].
  change (Meta.schedule (t :: sched) w) with (Meta.schedule sched (Meta.turn t w)).
  by rewrite IH, turn_classes.
Qed.

Lemma safe_one_object (w : Meta.world) (c : Meta.cls) (j j' : Meta.object) :
  Meta.safe w → Meta.objects (Meta.meta w) !! j = Some c →
  Meta.objects (Meta.meta w) !! j' = Some c → j = j'.
Proof.
  intros Hs Hj Hj'.
  destruct (Meta.sf_object _ Hs _ _ Hj) as [Hr|[t Ht]],
    (Meta.sf_object _ Hs _ _ Hj') as [Hr'|[t' Ht']].
  - congruence.
  - destruct (Meta.sf_store _ Hs _ _ _ Ht'). congruence.
  - destruct (Meta.sf_store _ Hs _ _ _ Ht). congruence.
  - assert (t = t') as -> by (by eapply (Meta.sf_alone _ Hs)). congruence.
Qed.

(** X13.  However the threads that call classes of the metaclass are
    scheduled, starting with no instance: two calls of a class that have
    returned have returned the same object; no class has two objects; a
    call that has returned has returned an object of the class it was
    called on, the one [_instances] holds for it; and no call has raised
    the [KeyError] of the unprotected last statement. *)
Theorem singleton_one_instance (classes : list Meta.cls) (sched : list nat) :
  let w := Meta.schedule sched (Meta.start Meta.empty classes) in
  (∀ t t' c i i', Meta.threads w !! t = Some (Meta.Returned c i) →
                  Meta.threads w !! t' = Some (Meta.Returned c i') → i = i')
  ∧ (∀ c j j', Meta.objects (Meta.meta w) !! j = Some c →
               Meta.objects (Meta.meta w) !! j' = Some c → j = j')
  ∧ (∀ t c i, Meta.threads w !! t = Some (Meta.Returned c i) →
              classes !! t = Some c
              ∧ Meta.objects (Meta.meta w) !! i = Some c
              ∧ Meta._instances (Meta.meta w) !! c = Some i)
  ∧ (∀ t c, Meta.threads w !! t ≠ Some (Meta.Raised c)).
Proof.
  intros w.
  assert (Meta.safe w) as Hs by apply schedule_safe, start_safe.
  split_and!.
  - intros t t' c i i' Ht Ht'.
    apply (Meta.sf_returned _ Hs) in Ht, Ht'. congruence.
  - intros c j j'. by apply safe_one_object.
  - intros t c i Ht. pose proof (Meta.sf_returned _ Hs _ _ _ Ht) as Hi. split_and!.
    + pose proof (schedule_classes sched (Meta.start Meta.empty classes)) as Hc.
      fold w in Hc. apply (f_equal (λ l, l !! t)) in Hc.
      rewrite !list_lookup_fmap, Ht in Hc. cbn in Hc.
      rewrite list_lookup_fmap in Hc.
      destruct (classes !! t); by simplify_eq.
    + by apply (Meta.sf_instance _ Hs).
    + done.
  - apply (Meta.sf_raised _ Hs).
Qed.

Lemma turn_held (t : nat) (w : Meta.world) :
  Meta.safe w → Meta.held w → Meta.held (Meta.turn t w).
Proof.
  intros Hs Hh. unfold Meta.turn. destruct (Meta.threads w !! t) as [p|] eqn:Hp; [|done].
  assert (t < length (Meta.threads w))%nat as Hlt by (by eapply lookup_lt_Some).
  assert (∀ m q, Meta._lock m = Meta._lock (Meta.meta w) → Meta.locked p = false →
            Meta.held {| Meta.meta := m; Meta.threads := <[t := q]> (Meta.threads w) |})
    as Hother.
  { intros m q Hm Hq Hl. cbn in *. rewrite Hm in Hl. destruct (Hh Hl) as (t' & p' & Ht' & Hl').
    exists t', p'. split; [|done]. rewrite list_lookup_insert_ne; [done|].
    intros <-. congruence. }
  assert (∀ m q, Meta.locked q = true →
            Meta.held {| Meta.meta := m; Meta.threads := <[t := q]> (Meta.threads w) |})
    as Hmine.
  { intros m q Hq _. exists t, q. cbn. by rewrite list_lookup_insert_eq. }
  destruct p as [c|c|c|c i|c|c|c i|c]; cbn.
  - destruct (Meta._lock (Meta.meta w)) eqn:Hl; [by apply Hother|by apply Hmine].
  - apply Hmine. by case_bool_decide.
  - by apply Hmine.
  - by apply Hmine.
  - by intros ?.
  - by apply Hother.
  - by apply Hother.
  - by apply Hother.
Qed.

Lemma schedule_held (sched : list nat) (w : Meta.world) :
  Meta.safe w → Meta.held w → Meta.held (Meta.schedule sched w).
Proof.
  revert w. induction sched as [|t sched IH]; intros w Hs Hh; [done|].
  change (Meta.schedule (t :: sched) w) with (Meta.schedule sched (Meta.turn t w)).
  apply IH; [by apply turn_safe|by apply turn_held].
Qed.

Lemma statement_moves (p : Meta.point) (m : Meta.state) :
  Meta.locked p = true ∨ (Meta._lock m = false ∧ Meta.over p = false) →
  (Meta.statement p m).2 ≠ p.
Proof.
  destruct p; cbn; intros [?|[Hl ?]]; try done.
  all: try rewrite Hl; try case_bool_decide; try done.
  all: by destruct (Meta._instances m !! c).
Qed.

Lemma turn_moves (t : nat) (w : Meta.world) (p : Meta.point) :
  Meta.threads w !! t = Some p →
  Meta.locked p = true ∨ (Meta._lock (Meta.meta w) = false ∧ Meta.over p = false) →
  Meta.threads (Meta.turn t w) !! t ≠ Meta.threads w !! t.
Proof.
  intros Hp Hm. unfold Meta.turn. rewrite Hp.
  pose proof (statement_moves p (Meta.meta w) Hm) as Hne.
  destruct (Meta.statement p (Meta.meta w)) as [m p']. cbn in *.
  rewrite list_lookup_insert_eq by (by eapply lookup_lt_Some). congruence.
Qed.

(** X14.  The lock of the metaclass never blocks every thread: however the
    calls have been scheduled so far, either every call is over or some
    thread's next statement moves it on. *)
Theorem singleton_no_deadlock (classes : list Meta.cls) (sched : list nat) :
  let w := Meta.schedule sched (Meta.start Meta.empty classes) in
  (∀ t p, Meta.threads w !! t = Some p → Meta.over p = true)
  ∨ (∃ t, Meta.threads (Meta.turn t w) !! t ≠ Meta.threads w !! t).
Proof.
  intros w.
  assert (Meta.safe w) as Hs by apply schedule_safe, start_safe.
  assert (Meta.held w) as Hh by (apply schedule_held; [apply start_safe|done]).
  destruct (decide (Forall (λ p, Meta.over p = true) (Meta.threads w))) as [Hall|Hsome].
  - left. intros t p Hp. by eapply Forall_lookup_1 in Hall.
  - right. apply not_Forall_Exists in Hsome; [|solve_decision].
    apply Exists_exists in Hsome as (p & Hin & Hp).
    apply list_elem_of_lookup in Hin as [t Ht].
    destruct (Meta._lock (Meta.meta w)) eqn:Hl.
    + destruct (Hh Hl) as (t' & p' & Ht' & Hp'). exists t'.
      eapply turn_moves; [done|by left].
    + exists t. eapply turn_moves; [done|]. right. split; [done|].
      by apply not_true_is_false.
Qed.

(** Two threads that call the same class, the second taking its turns while
    the first is between its test and its assignment: both return the one
    object. *)
Example two_calls_one_object :
  Meta.threads (Meta.schedule [0; 0; 1; 0; 1; 0; 0; 0; 1; 1; 1; 1]%nat
                  (Meta.start Meta.empty [7; 7]%nat))
  = [Meta.Returned 7%nat 0%nat; Meta.Returned 7%nat 0%nat].
Proof. vm_compute. reflexivity. Qed.
